(** * github-issues-export: a shallow embedding of src/main.rs and src/model.rs

    Rust strings ([&str], [String]) are modelled by the sequence of their
    [char]s, each a Unicode scalar value in [N]; raw byte buffers (a hyper
    [Chunk]) are lists of [N] in [0, 255]. [u64] and [usize] are [N]; the
    target is 64-bit, so [usize::MAX = 2^64 - 1]. *)

From Stdlib Require Import NArith Lia Ascii.
From stdpp Require Import base list gmap strings.

Local Open Scope N_scope.

Definition rstr := list N.

(** A Rust string literal made of ASCII characters. *)
Definition lit (s : string) : rstr :=
  map (fun a => Ascii.N_of_ascii a) (String.list_ascii_of_string s).

(** ** Data model (src/model.rs) *)

Record User := mkUser {
  u_login : rstr;
  u_id : N;
  u_avatar_url : rstr;
  u_gravatar_id : rstr;
  u_url : rstr;
  u_html_url : rstr;
  u_followers_url : rstr;
  u_following_url : rstr;
  u_gists_url : rstr;
  u_starred_url : rstr;
  u_subscriptions_url : rstr;
  u_organizations_url : rstr;
  u_repos_url : rstr;
  u_events_url : rstr;
  u_received_events_url : rstr;
  u_site_admin : bool
}.

Record Label := mkLabel { l_url : rstr; l_name : rstr; l_color : rstr }.

Record Issue := mkIssue {
  i_id : N;
  i_url : rstr;
  i_labels_url : rstr;
  i_comments_url : rstr;
  i_events_url : rstr;
  i_html_url : rstr;
  i_number : N;
  i_state : rstr;
  i_title : rstr;
  i_body : rstr;
  i_user : User;
  i_labels : list Label;
  i_assignee : option User;
  i_locked : bool;
  i_comments : N;
  i_closed_at : option rstr;
  i_created_at : rstr;
  i_updated_at : rstr
}.

Record Comment := mkComment {
  c_id : N;
  c_url : rstr;
  c_html_url : rstr;
  c_body : rstr;
  c_user : User;
  c_created_at : rstr;
  c_updated_at : rstr
}.

Record IssueWithComments := mkIssueWithComments {
  iwc_issue : Issue;
  iwc_comments : list Comment
}.

(** ** Errors (the [error_chain!] block of src/main.rs) *)

(** [std::io::ErrorKind], the variants the program can meet. *)
Inductive IoErrorKind :=
  | NotFound | PermissionDenied | AlreadyExists | NotADirectory | OtherIo.

Inductive ErrorKind :=
  | Msg (s : rstr)          (* chain_err(|| "...") *)
  | Request (t : rstr)      (* ErrorKind::Request(String) *)
  | Docopt
  | Io (k : IoErrorKind)
  | Hyper
  | HbTemplate
  | HbRender
  | NativeTls
  | Json
  | Utf8.

(** An [error_chain] error: its kind and the chain of causes it wraps,
    innermost last (what [Error::iter().skip(1)] walks). *)
Record Error := mkError { e_kind : ErrorKind; e_causes : list ErrorKind }.

Definition from_kind (k : ErrorKind) : Error := mkError k [].

(** [ResultExt::chain_err]: wrap [e] under a new kind. *)
Definition chain_err (e : Error) (k : ErrorKind) : Error :=
  mkError k (e_kind e :: e_causes e).

(** Rust's [Result]. *)
Inductive Result (A E : Type) := Ok (a : A) | Err (e : E).
Arguments Ok {A E} a.
Arguments Err {A E} e.

Definition bind_result {A B E} (r : Result A E) (k : A -> Result B E)
  : Result B E :=
  match r with Ok a => k a | Err e => Err e end.
(** Rust's [?] operator. *)
Notation "'let?' x := r 'in' k" := (bind_result r (fun x => k))
  (at level 200, x name, r at level 100, k at level 200).

(** ** The HTTP client ([struct Github], [Github::new], [Github::get]) *)

(** A hyper [Uri]; we only keep the text it was parsed from. *)
Record Uri := mkUri { uri_source : rstr }.

(** hyper's [UriError], kept as its [Debug] rendering (the text [expect]
    appends to its message). *)
Record UriError := mkUriError { uri_error_debug : rstr }.

Inductive Method := Get | Post.

(** [hyper::Request]. *)
Record HyperRequest := mkRequest {
  r_method : Method;
  r_uri : Uri;
  r_headers : list (rstr * rstr)
}.

(** [Headers::set]: a typed header replaces the one of the same name. *)
Definition header_set (name value : rstr) (hs : list (rstr * rstr))
  : list (rstr * rstr) :=
  filter (fun h => h.1 <> name) hs ++ [(name, value)].

Record Github := mkGithub {
  g_user_agent : rstr;   (* user_agent: UserAgent *)
  g_token : rstr         (* token: Authorization<String> *)
}.

Definition API_ENDPOINT : rstr := lit "https://api.github.com".

(** [Github::new]; [connector] is the result of
    [hyper_tls::HttpsConnector::new(4, handle)]. *)
Definition Github_new (connector : Result unit Error) (agent token : rstr)
  : Result Github Error :=
  let? _ := connector in
  Ok (mkGithub agent (lit "token " ++ token)).

(** The future [get] returns, or the panic raised while building it. *)
Inductive GetFuture :=
  | Panicked (msg : rstr)
  | Sent (req : HyperRequest).

Section Get.
(** [Uri::from_str] of hyper. *)
Variable uri_from_str : rstr -> Result Uri UriError.

(** The request part of [Github::get] (lines 80-86). *)
Definition Github_get (g : Github) (endpoint : rstr) : GetFuture :=
  match uri_from_str endpoint with
  | Err e => Panicked (lit "Could not parse uri: " ++ uri_error_debug e)
  | Ok url =>
      let hs := header_set (lit "User-Agent") (g_user_agent g) [] in
      let hs := header_set (lit "Authorization") (g_token g) hs in
      let hs := header_set (lit "Content-Type") (lit "application/json") hs in
      let hs := header_set (lit "Content-Length") (lit "0") hs in
      Sent (mkRequest Get url hs)
  end.
End Get.

(** [std::str::from_utf8] on a byte buffer: the decoded [char]s, or [None]
    for a [Utf8Error]. The accepted sequences are those of Rust's validator
    (no overlong forms, no surrogates, nothing above U+10FFFF). *)
Definition in_range (lo hi b : N) : bool := (lo <=? b) && (b <=? hi).
Definition is_cont (b : N) : bool := in_range 0x80 0xBF b.

(** For a leading byte: the range allowed for the second byte and the
    length of the sequence. *)
Definition utf8_lead (b0 : N) : option (N * N * nat) :=
  if in_range 0xC2 0xDF b0 then Some (0x80, 0xBF, 2%nat)
  else if b0 =? 0xE0 then Some (0xA0, 0xBF, 3%nat)
  else if in_range 0xE1 0xEC b0 || in_range 0xEE 0xEF b0
       then Some (0x80, 0xBF, 3%nat)
  else if b0 =? 0xED then Some (0x80, 0x9F, 3%nat)
  else if b0 =? 0xF0 then Some (0x90, 0xBF, 4%nat)
  else if in_range 0xF1 0xF3 b0 then Some (0x80, 0xBF, 4%nat)
  else if b0 =? 0xF4 then Some (0x80, 0x8F, 4%nat)
  else None.

Definition low6 (b : N) : N := N.land b 0x3F.

Fixpoint from_utf8 (bs : list N) : option rstr :=
  match bs with
  | [] => Some []
  | b0 :: rest =>
      if b0 <? 0x80 then cons b0 <$> from_utf8 rest else
      match utf8_lead b0, rest with
      | Some (lo, hi, 2%nat), b1 :: rest' =>
          if in_range lo hi b1
          then cons (N.lor (N.shiftl (N.land b0 0x1F) 6) (low6 b1))
                 <$> from_utf8 rest'
          else None
      | Some (lo, hi, 3%nat), b1 :: b2 :: rest' =>
          if in_range lo hi b1 && is_cont b2
          then cons (N.lor (N.shiftl (N.land b0 0x0F) 12)
                      (N.lor (N.shiftl (low6 b1) 6) (low6 b2)))
                 <$> from_utf8 rest'
          else None
      | Some (lo, hi, 4%nat), b1 :: b2 :: b3 :: rest' =>
          if in_range lo hi b1 && is_cont b2 && is_cont b3
          then cons (N.lor (N.shiftl (N.land b0 0x07) 18)
                      (N.lor (N.shiftl (low6 b1) 12)
                        (N.lor (N.shiftl (low6 b2) 6) (low6 b3))))
                 <$> from_utf8 rest'
          else None
      | _, _ => None
      end
  end.

(** A hyper response: its status code and the result of [body().concat2()]. *)
Record Response := mkResponse {
  resp_status : N;
  resp_body : Result (list N) unit
}.

(** [StatusCode::is_success]: 2xx. *)
Definition is_success (status : N) : bool := in_range 200 299 status.

(** The completion part of [Github::get] (lines 87-100): what the future
    resolves to once [client.request(req)] has produced [resp]
    ([Err] being a hyper error). [deserialize] is [serde_json::from_slice]
    at the target type [T]. *)
Definition Github_get_complete {T} (deserialize : list N -> option T)
    (resp : Result Response unit) : Result T Error :=
  match resp with
  | Err _ => Err (from_kind Hyper)
  | Ok r =>
      match resp_body r with
      | Err _ => Err (from_kind Hyper)
      | Ok chunk =>
          if negb (is_success (resp_status r)) then
            match from_utf8 chunk with
            | None => Err (from_kind Utf8)
            | Some s => Err (from_kind (Request s))
            end
          else
            match deserialize chunk with
            | Some v => Ok v
            | None => Err (chain_err (from_kind Json)
                             (Msg (lit "Could not parse response from server")))
            end
      end
  end.

(** ** Query parsing (the block of [parse_args], lines 233-256) *)

(** [str::split] at a one-character pattern. *)
Fixpoint split (c : N) (s : rstr) : list rstr :=
  match s with
  | [] => [[]]
  | x :: t =>
      let parts := split c t in
      if x =? c then [] :: parts
      else match parts with
           | p :: ps => (x :: p) :: ps
           | [] => [[x]]
           end
  end.

Definition USIZE_MAX : N := 2 ^ 64 - 1.

Definition digit_value (c : N) : option N :=
  if in_range 48 57 c then Some (c - 48) else None.

(** The digit loop of [usize::from_str_radix] at radix 10, with its
    [checked_mul] and [checked_add]. *)
Fixpoint parse_digits (acc : N) (s : rstr) : option N :=
  match s with
  | [] => Some acc
  | c :: t =>
      match digit_value c with
      | None => None
      | Some d =>
          let m := acc * 10 in
          if USIZE_MAX <? m then None else
          let a := m + d in
          if USIZE_MAX <? a then None else parse_digits a t
      end
  end.

(** [str::parse::<usize>]: an optional leading ['+'], then at least one
    decimal digit, the value fitting in [usize]. *)
Definition parse_usize (s : rstr) : option N :=
  match s with
  | [] => None
  | c :: t =>
      if c =? 43 then
        match t with [] => None | _ => parse_digits 0 t end
      else parse_digits 0 s
  end.

Definition SLASH : N := 47.
Definition HASH : N := 35.

(** The fields of [Args] the block sets. *)
Record Query := mkQuery {
  arg_username : rstr;
  arg_repo : rstr;
  arg_issue : option N
}.

(** The block of [parse_args] that splits [args.arg_query]; [Err 1] is
    the [std::process::exit(1)] after "Wrong argument". *)
Definition parse_query (arg_query : rstr) : Result Query N :=
  let parts := split SLASH arg_query in
  if negb (length parts =? 2)%nat then Err 1 else
  match parts with
  | [username; rest] =>
      match split HASH rest with
      | [repo] => Ok (mkQuery username repo None)
      | [repo; num] =>
          match parse_usize num with
          | Some value => Ok (mkQuery username repo (Some value))
          | None => Err 1
          end
      | _ => Err 1
      end
  | _ => Err 1
  end.

(** ** Output file names ([issue_to_filename], [slug::slugify]) *)

(** [Display] for an unsigned integer: its decimal digits. *)
Fixpoint decimal_aux (fuel : nat) (n : N) (acc : rstr) : rstr :=
  match fuel with
  | O => acc
  | S fuel' =>
      if n <? 10 then (48 + n) :: acc
      else decimal_aux fuel' (n / 10) ((48 + n mod 10) :: acc)
  end.

Definition decimal (n : N) : rstr := decimal_aux (S (N.size_nat n)) n [].

(** The [{:03}] format of a [u64]: zero-padded to width 3. *)
Definition pad3 (n : N) : rstr :=
  let ds := decimal n in
  replicate (3 - length ds) 48 ++ ds.

(** The value of a string of decimal digits. *)
Definition digits_value (s : rstr) : N :=
  fold_left (fun acc c => acc * 10 + (c - 48)) s 0.

Definition DASH : N := 45.

Section Slug.
(** [deunicode_char(c).unwrap_or("-")] as bytes (the transliteration
    table of the [slug] crate), used for non-ASCII [char]s. *)
Variable translit : N -> list N.

(** The [push_char] closure of [slug::slugify]; the state is
    [(prev_is_dash, slug)]. *)
Definition push_char (st : bool * list N) (x : N) : bool * list N :=
  let '(prev_is_dash, slug) := st in
  if in_range 97 122 x || in_range 48 57 x then (false, slug ++ [x])
  else if in_range 65 90 x then (false, slug ++ [x - 65 + 97])
  else if prev_is_dash then (prev_is_dash, slug)
  else (true, slug ++ [DASH]).

Definition push_c (st : bool * list N) (c : N) : bool * list N :=
  if c <? 128 then push_char st c
  else fold_left push_char (translit c) st.

Definition slugify (s : rstr) : rstr :=
  let slug := (fold_left push_c s (true, [])).2 in
  if decide (last slug = Some DASH) then removelast slug else slug.

Definition issue_to_filename (path : rstr) (issue : Issue) : rstr :=
  path ++ lit "/" ++ pad3 (i_number issue) ++ lit "-"
       ++ slugify (i_title issue) ++ lit ".md".
End Slug.

(** ** The file system ([std::fs::create_dir], [File::create], [mkdir]) *)

(** An entry of the file system; a directory records whether new entries
    may be created in it. *)
Inductive Entry :=
  | DirEntry (writable : bool)
  | FileEntry (contents : rstr).

(** The file system: each path, taken literally, to what is there. *)
Definition FS := gmap rstr Entry.

Fixpoint join (sep : N) (ps : list rstr) : rstr :=
  match ps with
  | [] => []
  | [p] => p
  | p :: ps' => p ++ sep :: join sep ps'
  end.

(** The directory a path is created in ("." for a bare name). *)
Definition dirname (p : rstr) : rstr :=
  match removelast (split SLASH p) with
  | [] => lit "."
  | ps => join SLASH ps
  end.

(** [std::fs::create_dir] ([mkdir(2)]): anything already at the path is
    [AlreadyExists], checked before the parent. *)
Definition create_dir (fs : FS) (p : rstr) : Result FS IoErrorKind :=
  match fs !! p with
  | Some _ => Err AlreadyExists
  | None =>
      match fs !! dirname p with
      | Some (DirEntry true) => Ok (<[p := DirEntry true]> fs)
      | Some (DirEntry false) => Err PermissionDenied
      | Some (FileEntry _) => Err NotADirectory
      | None => Err NotFound
      end
  end.

(** [std::fs::File::create]: truncates an existing file, or creates one. *)
Definition file_create (fs : FS) (p : rstr) : Result FS IoErrorKind :=
  match fs !! p with
  | Some (DirEntry _) => Err OtherIo
  | Some (FileEntry _) => Ok (<[p := FileEntry []]> fs)
  | None =>
      match fs !! dirname p with
      | Some (DirEntry true) => Ok (<[p := FileEntry []]> fs)
      | Some (DirEntry false) => Err PermissionDenied
      | Some (FileEntry _) => Err NotADirectory
      | None => Err NotFound
      end
  end.

(** [mkdir] (lines 134-144), threading the file system. *)
Definition mkdir (fs : FS) (path : rstr) : Result unit Error * FS :=
  match create_dir fs path with
  | Ok fs' => (Ok tt, fs')
  | Err err =>
      match err with
      | AlreadyExists => (Ok tt, fs)
      | k => (Err (from_kind (Io k)), fs)
      end
  end.

(** ** [future::join_all] over the comment fetches (lines 286-294) *)

(** One element of the join, [Future::join(future::ok(issue),
    github.get(&comments_url))], once [get] has built its request:
    whether it has been polled yet (the request is sent on the first
    poll), how many more polls it answers [NotReady], and what the
    [get] future resolves to (see [Github_get_complete]). *)
Record Fetch := mkFetch {
  f_issue : Issue;
  f_started : bool;
  f_wait : nat;
  f_outcome : Result (list Comment) Error
}.

Inductive Async (A : Type) := Ready (a : A) | NotReady.
Arguments Ready {A} a.
Arguments NotReady {A}.

(** [Future::poll] of one element. *)
Definition poll_fetch (f : Fetch)
  : Fetch * Result (Async (Issue * list Comment)) Error :=
  match f_wait f with
  | S w => (mkFetch (f_issue f) true w (f_outcome f), Ok NotReady)
  | O =>
      let f' := mkFetch (f_issue f) true 0 (f_outcome f) in
      match f_outcome f with
      | Ok cs => (f', Ok (Ready (f_issue f, cs)))
      | Err e => (f', Err e)
      end
  end.

(** [ElemState] of futures 0.1. *)
Inductive ElemState :=
  | Pending (f : Fetch)
  | Done (v : Issue * list Comment).

(** The loop of [JoinAll::poll]: every pending element is polled, in
    order; the first error ends the poll at once, the later elements not
    polled. Returns the new elements and [all_done]. *)
Fixpoint poll_elems (elems : list ElemState)
  : Result (list ElemState * bool) Error :=
  match elems with
  | [] => Ok ([], true)
  | Done v :: t =>
      let? r := poll_elems t in Ok (Done v :: r.1, r.2)
  | Pending f :: t =>
      let '(f', p) := poll_fetch f in
      match p with
      | Err e => Err e
      | Ok (Ready v) => let? r := poll_elems t in Ok (Done v :: r.1, r.2)
      | Ok NotReady => let? r := poll_elems t in Ok (Pending f' :: r.1, false)
      end
  end.

Definition done_value (e : ElemState) : option (Issue * list Comment) :=
  match e with Done v => Some v | Pending _ => None end.

(** [JoinAll::poll]: on an error or on completion the elements are
    dropped ([self.elems = Vec::new()] / [mem::replace]). *)
Definition join_all_poll (elems : list ElemState)
  : list ElemState * Result (Async (list (Issue * list Comment))) Error :=
  match poll_elems elems with
  | Err e => ([], Err e)
  | Ok (elems', true) => ([], Ok (Ready (omap done_value elems')))
  | Ok (elems', false) => (elems', Ok NotReady)
  end.

(** The comment fetches in flight: sent and not yet resolved. *)
Definition is_in_flight (e : ElemState) : bool :=
  match e with Pending f => f_started f | Done _ => false end.

Definition in_flight (elems : list ElemState) : nat :=
  length (filter (fun e => is_in_flight e = true) elems).

Inductive JoinResult :=
  | Finished (vs : list (Issue * list Comment))
  | Failed (e : Error)
  | Stuck.

(** [Core::run] on the join: poll until it is ready or fails. Also returns
    the elements between consecutive polls, the instants at which the
    fetches in flight can be observed. *)
Fixpoint core_run (fuel : nat) (elems : list ElemState)
  : JoinResult * list (list ElemState) :=
  match fuel with
  | O => (Stuck, [])
  | S fuel' =>
      let '(elems', p) := join_all_poll elems in
      match p with
      | Err e => (Failed e, [])
      | Ok (Ready vs) => (Finished vs, [])
      | Ok NotReady =>
          let '(r, tr) := core_run fuel' elems' in (r, elems' :: tr)
      end
  end.

Definition elem_wait (e : ElemState) : nat :=
  match e with Pending f => f_wait f | Done _ => 0 end.

(** Enough polls for every element to resolve. *)
Definition join_fuel (elems : list ElemState) : nat :=
  S (list_max (map elem_wait elems)).

(** ** The pipeline ([enum State], [serialize], [run]) *)

Inductive State := Open | Closed | All.

(** [impl fmt::Display for State]. *)
Definition State_fmt (s : State) : rstr :=
  match s with
  | Open => lit "open"
  | Closed => lit "closed"
  | All => lit "all"
  end.

(** What the process has done to the outside: its files and stdout lines. *)
Record World := mkWorld { w_fs : FS; w_stdout : list rstr }.

(** A future run to its end: a panic, or its result. *)
Inductive Completion (A : Type) :=
  | Panics (msg : rstr)
  | Returns (r : Result A Error).
Arguments Panics {A} msg.
Arguments Returns {A} r.

Inductive RunOutcome :=
  | Exited (r : Result unit Error)
  | Panic (msg : rstr)
  | NotFinished.   (* the poll loop ran out of fuel; see join_terminates *)

Section Run.
Variable translit : N -> list N.
Variable uri_from_str : rstr -> Result Uri UriError.
(** The network: for a request sent, the number of polls it stays
    unanswered, and the response ([Err]: a hyper error). *)
Variable net : HyperRequest -> nat * Result Response unit.
(** [serde_json::from_slice] at [Issue], [Vec<Issue>], [Vec<Comment>]. *)
Variable de_issue : list N -> option Issue.
Variable de_issues : list N -> option (list Issue).
Variable de_comments : list N -> option (list Comment).
(** [reg.register_template_string("issue", template::TEMPLATE)] and
    [hb.render("issue", &data)]. *)
Variable register_template : Result unit Error.
Variable render : IssueWithComments -> Result rstr Error.

(** [Github::issue]. *)
Definition Github_issue (g : Github) (user repo : rstr) (number : N)
  : GetFuture :=
  Github_get uri_from_str g
    (API_ENDPOINT ++ lit "/repos/" ++ user ++ lit "/" ++ repo
       ++ lit "/issues/" ++ decimal number).

(** [Github::issues]. *)
Definition Github_issues (g : Github) (user repo : rstr) (state : State)
  : GetFuture :=
  Github_get uri_from_str g
    (API_ENDPOINT ++ lit "/repos/" ++ user ++ lit "/" ++ repo
       ++ lit "/issues?state=" ++ State_fmt state).

Definition await {T} (de : list N -> option T) (fut : GetFuture)
  : Completion T :=
  match fut with
  | Panicked m => Panics m
  | Sent req => Returns (Github_get_complete de (net req).2)
  end.

(** The closure mapped over the issues: builds the [get] of the
    comments (a panic if its URI does not parse). *)
Definition mk_fetch (g : Github) (issue : Issue) : Result ElemState rstr :=
  match Github_get uri_from_str g (i_comments_url issue) with
  | Panicked m => Err m
  | Sent req =>
      let '(w, resp) := net req in
      Ok (Pending (mkFetch issue false w
                     (Github_get_complete de_comments resp)))
  end.

(** [join_all] collects the mapped iterator when it is built. *)
Fixpoint mk_elems (g : Github) (issues : list Issue)
  : Result (list ElemState) rstr :=
  match issues with
  | [] => Ok []
  | i :: is =>
      match mk_fetch g i with
      | Err m => Err m
      | Ok e =>
          match mk_elems g is with
          | Err m => Err m
          | Ok es => Ok (e :: es)
          end
      end
  end.

(** [fut_issues] (lines 277-284), run to its end. *)
Definition fetch_issues (github : Github) (args : Query) (flag_state : State)
  : Completion (list Issue) :=
  match arg_issue args with
  | Some issue_number =>
      match await de_issue (Github_issue github (arg_username args)
                              (arg_repo args) issue_number) with
      | Panics m => Panics m
      | Returns r => Returns (let? issue := r in Ok [issue])
      end
  | None =>
      await de_issues (Github_issues github (arg_username args)
                         (arg_repo args) flag_state)
  end.

(** [serialize] (lines 155-162). *)
Definition serialize (path : rstr) (w : World) (data : IssueWithComments)
  : Result unit Error * World :=
  match render data with
  | Err e => (Err e, w)
  | Ok md =>
      let filename := issue_to_filename translit path (iwc_issue data) in
      match file_create (w_fs w) filename with
      | Err k => (Err (from_kind (Io k)), w)
      | Ok fs =>
          (Ok tt, mkWorld (<[filename := FileEntry md]> fs)
                    (w_stdout w ++ [lit "Writing name " ++ filename]))
      end
  end.

(** The [for] loop of lines 310-312. *)
Fixpoint serialize_all (path : rstr) (w : World)
    (datas : list IssueWithComments) : Result unit Error * World :=
  match datas with
  | [] => (Ok tt, w)
  | d :: ds =>
      match serialize path w d with
      | (Err e, w') => (Err e, w')
      | (Ok _, w') => serialize_all path w' ds
      end
  end.

(** [run] (lines 261-315), after [parse_args]. [core_new] is the result
    of [Core::new()], [connector] that of [HttpsConnector::new]. *)
Definition run (core_new connector : Result unit Error) (agent : rstr)
    (args : Query) (env_token flag_path : rstr) (flag_state : State)
    (w : World) : RunOutcome * World :=
  match core_new with Err e => (Exited (Err e), w) | Ok _ =>
  match Github_new connector agent env_token with
  | Err e => (Exited (Err e), w)
  | Ok github =>
  match fetch_issues github args flag_state with
  | Panics m => (Panic m, w)
  | Returns (Err e) => (Exited (Err e), w)
  | Returns (Ok issues) =>
  match mk_elems github issues with
  | Err m => (Panic m, w)
  | Ok elems =>
  match (core_run (join_fuel elems) elems).1 with
  | Stuck => (NotFinished, w)
  | Failed e => (Exited (Err e), w)
  | Finished vs =>
  let issues := map (fun '(issue, comments) =>
                       mkIssueWithComments issue comments) vs in
  match register_template with
  | Err e => (Exited (Err e), w)
  | Ok _ =>
  match mkdir (w_fs w) flag_path with
  | (Err e, fs) => (Exited (Err e), mkWorld fs (w_stdout w))
  | (Ok _, fs) =>
      let '(r, w') := serialize_all flag_path (mkWorld fs (w_stdout w))
                        issues in
      (Exited r, w')
  end end end end end end end.
End Run.

(** Reading a header of a built request. *)
Fixpoint header_lookup (name : rstr) (hs : list (rstr * rstr)) : option rstr :=
  match hs with
  | [] => None
  | (n, v) :: hs' => if decide (n = name) then Some v else header_lookup name hs'
  end.

(** The characters a slug may contain: [a-z], [0-9] and ['-']. *)
Definition slug_char (c : N) : bool :=
  in_range 97 122 c || in_range 48 57 c || (c =? DASH).

(** No two adjacent hyphens. *)
Definition no_double_dash (s : rstr) : Prop :=
  forall i, s !! i = Some DASH -> s !! S i <> Some DASH.

(** Sample data for concrete runs. *)
Definition sample_user : User :=
  mkUser (lit "octocat") 1 [] [] [] [] [] [] [] [] [] [] [] [] [] false.

Definition sample_comments_url (number : N) : rstr :=
  API_ENDPOINT ++ lit "/repos/octocat/Hello-World/issues/" ++ decimal number
    ++ lit "/comments".

Definition sample_issue (number : N) (title : rstr) : Issue :=
  mkIssue number [] [] (sample_comments_url number) [] [] number (lit "open")
    title [] sample_user [] None false 0 None [] [].

Definition sample_github : Github := mkGithub (lit "agent") (lit "token t").

(** A network where every request is answered after one poll, the
    comments of issue 2 with a server error, everything else with 200. *)
Definition sample_net (req : HyperRequest) : nat * Result Response unit :=
  if decide (uri_source (r_uri req) = sample_comments_url 2)
  then (1%nat, Ok (mkResponse 500 (Ok (lit "boom"))))
  else (1%nat, Ok (mkResponse 200 (Ok []))).

(** One step of the [JoinAll::poll] loop on a single element: the new
    element and whether it is done. *)
Definition poll_elem (e : ElemState) : Result (ElemState * bool) Error :=
  match e with
  | Done v => Ok (Done v, true)
  | Pending f =>
      let '(f', p) := poll_fetch f in
      match p with
      | Err err => Err err
      | Ok (Ready v) => Ok (Done v, true)
      | Ok NotReady => Ok (Pending f', false)
      end
  end.

(** How an element of the join relates to the element it started as: the
    same fetch, further along, or done with that fetch's comments. *)
Definition corr (e0 e : ElemState) : Prop :=
  match e0 with
  | Pending f0 =>
      (exists st w, e = Pending (mkFetch (f_issue f0) st w (f_outcome f0))) \/
      (exists cs, f_outcome f0 = Ok cs /\ e = Done (f_issue f0, cs))
  | Done v => e = Done v
  end.

(** What a finished join yields for each element it started with. *)
Definition fin (e0 : ElemState) (v : Issue * list Comment) : Prop :=
  match e0 with
  | Pending f0 => v.1 = f_issue f0 /\ f_outcome f0 = Ok v.2
  | Done v0 => v = v0
  end.

(** A URI parser that rejects only the empty string, as hyper 0.11's
    [Uri::from_str] does at least (with [UriError(Empty)]). *)
Definition uri_nonempty (s : rstr) : Result Uri UriError :=
  match s with
  | [] => Err (mkUriError (lit "UriError(Empty)"))
  | _ => Ok (mkUri s)
  end.

Definition is_digit (c : N) : bool := in_range 48 57 c.

(** The value [parse_digits] accumulates, without the overflow checks. *)
Definition digits_from (acc : N) (s : rstr) : N :=
  fold_left (fun a c => a * 10 + (c - 48)) s acc.

(** What [parse_query] accepts, and what it builds. *)
Definition query_form (q : rstr) (x : Query) : Prop :=
  (SLASH ∉ arg_username x) /\ (SLASH ∉ arg_repo x) /\ (HASH ∉ arg_repo x) /\
  ((q = arg_username x ++ SLASH :: arg_repo x /\ arg_issue x = None) \/
   (exists num n, (SLASH ∉ num) /\ (HASH ∉ num) /\ parse_usize num = Some n /\
      q = arg_username x ++ SLASH :: arg_repo x ++ HASH :: num /\
      arg_issue x = Some n)).

(** The invariant of the [slugify] loop on [(prev_is_dash, slug)]. *)
Definition slug_inv (st : bool * list N) : Prop :=
  Forall (fun c => slug_char c = true) (st.2) /\ head (st.2) <> Some DASH /\
  no_double_dash (st.2) /\
  (st.1 = false -> last (st.2) <> None /\ last (st.2) <> Some DASH).

(** Issues numbered 1 to [n]. *)
Definition sample_issues (n : nat) : list Issue :=
  map (fun k => sample_issue (N.of_nat k) (lit "Issue")) (seq 1 n).

(** A network where every request is answered after one poll with 200 and
    an empty body. *)
Definition ok_net (req : HyperRequest) : nat * Result Response unit :=
  (1%nat, Ok (mkResponse 200 (Ok []))).

Definition no_comments (body : list N) : option (list Comment) := Some [].

Definition sample_translit (c : N) : list N := [c].

Definition sample_render (d : IssueWithComments) : Result rstr Error :=
  Ok (i_title (iwc_issue d)).

Definition sample_query : Query :=
  mkQuery (lit "octocat") (lit "Hello-World") None.

(** A working directory "." that can be written to. *)
Definition sample_world : World := mkWorld {[ lit "." := DirEntry true ]} [].

Definition ok_or {A E} (d : A) (r : Result A E) : A :=
  match r with Ok a => a | Err _ => d end.

(** The comment fetches of the three sample issues. *)
Definition sample_elems (net : HyperRequest -> nat * Result Response unit)
  : list ElemState :=
  ok_or [] (mk_elems uri_nonempty net no_comments sample_github (sample_issues 3)).



(** ** [parse_args] (lines 218-259) *)

(** The fields of [Args] that [Docopt::deserialize] fills in (docopt
    itself is not modelled). *)
Record DocoptArgs := mkDocoptArgs {
  flag_version : bool;
  arg_query : rstr;
  flag_path : rstr;
  flag_state : State
}.

(** [Args] once [parse_args] has filled in the skipped fields. *)
Record Args := mkArgs {
  a_docopt : DocoptArgs;
  env_token : rstr;
  a_query : Query
}.

(** How [parse_args] ends: with the arguments, or with the process exiting
    with a code after printing lines to stdout and stderr. *)
Inductive ParseOutcome :=
  | ArgsOk (a : Args)
  | Exit (code : N) (stdout stderr : list rstr).

Definition USAGE : rstr := lit "
Export issues from GitHub into markdown files.

Usage:
  github-issues-export [options] <query>
  github-issues-export (-h | --help)
  github-issues-export --version

<query> is of the form: username/repo[#issue_number].

Environment variables:
  GITHUB_TOKEN      Authorization token for GitHub.

Options:
  -h --help                         Show this screen.
  --version                         Show version.
  -p --path=<directory>             Output directory [default: ./md].
  -s --state=<open|closed|all>      Fetch issues that are open, closed, or
                                    both [default: open].
".

(** The message of the "Wrong argument" exits. *)
Definition wrong_argument (arg_query : rstr) : rstr :=
  lit "Wrong argument: " ++ arg_query ++ lit "." ++ [10; 10] ++ USAGE.

Section ParseArgs.
(** [env!("CARGO_PKG_NAME")] and [env!("CARGO_PKG_VERSION")]. *)
Variable CARGO_PKG_NAME CARGO_PKG_VERSION : rstr.

(** [parse_args]: [docopt] is the result of [Docopt::new(USAGE)
    .and_then(|d| d.deserialize())], its error being what [e.exit()]
    prints and exits with; [github_token] is [std::env::var("GITHUB_TOKEN")]
    ([None] when unset or not unicode). *)
Definition parse_args (docopt : Result DocoptArgs (N * list rstr * list rstr))
    (github_token : option rstr) : ParseOutcome :=
  match docopt with
  | Err (code, out, err) => Exit code out err
  | Ok d =>
      if flag_version d then
        Exit 0 [CARGO_PKG_NAME ++ lit " " ++ CARGO_PKG_VERSION] []
      else
      match github_token with
      | None => Exit 1 [] [lit "Missing obligatory environment variable GITHUB_TOKEN"]
      | Some token =>
          match parse_query (arg_query d) with
          | Ok q => ArgsOk (mkArgs d token q)
          | Err code => Exit code [] [wrong_argument (arg_query d)]
          end
      end
  end.
End ParseArgs.

(** ** [main] (lines 317-330) *)

Section Main.
(** The [Display] of the foreign errors ([docopt], [io], [hyper], ...). *)
Variable display_foreign : ErrorKind -> rstr.

(** [Display] of an [ErrorKind] of the [error_chain!] block. *)
Definition display_kind (k : ErrorKind) : rstr :=
  match k with
  | Msg s => s
  | Request t => lit "request failed: '" ++ t ++ lit "'"
  | _ => display_foreign k
  end.

(** [main] on the result of [run]: the lines written to stderr and the
    exit code. *)
Definition main_report (r : Result unit Error) : list rstr * N :=
  match r with
  | Ok _ => ([], 0)
  | Err e =>
      ((lit "Error: " ++ display_kind (e_kind e)) ::
         map (fun k => lit "Caused by: " ++ display_kind k) (e_causes e), 1)
  end.
End Main.

(** An element of the join whose fetch is pending, answers after [k] more
    polls, and fails with [err]. *)
Definition fail_at (x : ElemState) (k : nat) (err : Error) : Prop :=
  exists f, x = Pending f /\ f_wait f = k /\ f_outcome f = Err err.

(** A network where the comments of issue 1 fail after three polls, those
    of issue 3 fail after one poll, and everything else succeeds after one
    poll. *)
Definition race_net (req : HyperRequest) : nat * Result Response unit :=
  if decide (uri_source (r_uri req) = sample_comments_url 1)
  then (3%nat, Ok (mkResponse 500 (Ok (lit "slow"))))
  else if decide (uri_source (r_uri req) = sample_comments_url 3)
  then (1%nat, Ok (mkResponse 502 (Ok (lit "fast"))))
  else (1%nat, Ok (mkResponse 200 (Ok []))).

(** * Theorems *)

(** ** [Github::get]: error results, headers, URI parsing *)

(** C3 (counterexample): a 404 response whose body is the single byte
    0xFF makes [get] fail with a [Utf8] error, not with [Request]: the body
    is decoded strictly, not lossily. *)
Lemma get_invalid_utf8_body_not_request :
  Github_get_complete (fun _ : list N => @None unit)
    (Ok (mkResponse 404 (Ok [0xFF]))) = Err (from_kind Utf8) /\
  (forall t causes,
     Github_get_complete (fun _ : list N => @None unit)
       (Ok (mkResponse 404 (Ok [0xFF]))) <> Err (mkError (Request t) causes)).
Proof. split; [reflexivity | discriminate]. Qed.

(** C3 (amended): on a non-success status, once the body has been read,
    [get] fails with [Request] carrying the body decoded by
    [std::str::from_utf8] when the body is valid UTF-8, and with a [Utf8]
    error otherwise. *)
Theorem get_nonsuccess_result {T} (de : list N -> option T)
    (status : N) (chunk : list N) :
  is_success status = false ->
  Github_get_complete de (Ok (mkResponse status (Ok chunk))) =
    match from_utf8 chunk with
    | Some s => Err (from_kind (Request s))
    | None => Err (from_kind Utf8)
    end.
Proof.
  intros Hs. unfold Github_get_complete. simpl. rewrite Hs. simpl.
  destruct (from_utf8 chunk); reflexivity.
Qed.

Lemma get_nonsuccess_result_witness :
  is_success 404 = false /\
  Github_get_complete (fun _ : list N => @None unit)
    (Ok (mkResponse 404 (Ok (lit "Not Found")))) =
    Err (from_kind (Request (lit "Not Found"))).
Proof.
  split; [reflexivity|].
  etransitivity; [apply (get_nonsuccess_result _ 404); reflexivity|].
  reflexivity.
Defined.

(** C4 (counterexample): the [Authorization] header of a request is
    ["token <token>"], not ["Bearer <token>"]. *)
Lemma authorization_is_not_bearer :
  exists g req,
    Github_new (Ok tt) (lit "agent") (lit "abc") = Ok g /\
    Github_get uri_nonempty g (lit "https://api.github.com/x") = Sent req /\
    header_lookup (lit "Authorization") (r_headers req) = Some (lit "token abc") /\
    header_lookup (lit "Authorization") (r_headers req) <> Some (lit "Bearer abc").
Proof.
  eexists _, _. split; [reflexivity|]. split; [reflexivity|].
  split; [reflexivity | vm_compute; congruence].
Qed.

(** C4 (amended): every request [get] builds with a client from
    [Github::new] carries exactly the headers [User-Agent: <agent>],
    [Authorization: token <token>], [Content-Type: application/json] and
    [Content-Length: 0]. *)
Theorem get_request_headers uri_from_str connector agent token g endpoint req :
  Github_new connector agent token = Ok g ->
  Github_get uri_from_str g endpoint = Sent req ->
  r_method req = Get /\
  r_headers req =
    [(lit "User-Agent", agent);
     (lit "Authorization", lit "token " ++ token);
     (lit "Content-Type", lit "application/json");
     (lit "Content-Length", lit "0")].
Proof.
  intros Hnew Hget. unfold Github_new in Hnew.
  destruct connector; simpl in Hnew; inversion Hnew; subst g; clear Hnew.
  unfold Github_get in Hget. destruct (uri_from_str endpoint); inversion Hget.
  subst req. simpl. split; [reflexivity|].
  unfold header_set. simpl. reflexivity.
Qed.

Lemma get_request_headers_witness :
  exists g req,
    Github_new (Ok tt) (lit "a") (lit "t") = Ok g /\
    Github_get uri_nonempty g (lit "u") = Sent req /\
    r_headers req =
      [(lit "User-Agent", lit "a");
       (lit "Authorization", lit "token t");
       (lit "Content-Type", lit "application/json");
       (lit "Content-Length", lit "0")].
Proof.
  eexists _, _. split; [reflexivity|]. split; [reflexivity|].
  refine (proj2 (get_request_headers uri_nonempty (Ok tt) (lit "a") (lit "t")
                   _ (lit "u") _ eq_refl eq_refl)).
Defined.




(** ** Query parsing *)

Lemma split_not_nil c s : split c s <> [].
Proof.
  induction s as [|x t IH]; simpl; [done|].
  destruct (x =? c); [done|]. destruct (split c t); done.
Qed.

Lemma split_no_sep c s : c ∉ s -> split c s = [s].
Proof.
  induction s as [|x t IH]; intros Hn; simpl; [done|].
  rewrite not_elem_of_cons in Hn. destruct Hn as [Hx Ht].
  rewrite IH by done. destruct (N.eqb_spec x c); [congruence|done].
Qed.

Lemma split_app_sep c a b : c ∉ a -> split c (a ++ c :: b) = a :: split c b.
Proof.
  induction a as [|x t IH]; intros Hn; simpl.
  - rewrite N.eqb_refl. done.
  - rewrite not_elem_of_cons in Hn. destruct Hn as [Hx Ht].
    rewrite IH by done. destruct (N.eqb_spec x c); [congruence|done].
Qed.

Lemma join_cons_head c x p ps : join c ((x :: p) :: ps) = x :: join c (p :: ps).
Proof. destruct ps; reflexivity. Qed.

Lemma join_split c s : join c (split c s) = s.
Proof.
  induction s as [|x t IH]; simpl; [done|].
  destruct (N.eqb_spec x c) as [->|Hx].
  - pose proof (split_not_nil c t) as Hne.
    destruct (split c t) as [|p ps] eqn:E; [done|]. rewrite <- IH. reflexivity.
  - pose proof (split_not_nil c t) as Hne.
    destruct (split c t) as [|p ps] eqn:E; [done|].
    rewrite join_cons_head. f_equal. exact IH.
Qed.

Lemma split_parts_no_sep c s : Forall (fun p => c ∉ p) (split c s).
Proof.
  induction s as [|x t IH]; simpl.
  - repeat constructor. apply not_elem_of_nil.
  - destruct (N.eqb_spec x c) as [->|Hx].
    + constructor; [apply not_elem_of_nil | done].
    + destruct (split c t) as [|p ps] eqn:E; [by apply split_not_nil in E|].
      inversion IH as [|? ? Hp Hps]; subst. constructor; [|done].
      rewrite not_elem_of_cons. split; [congruence|done].
Qed.

(** The two-part splits, as [parse_query] uses them. *)
Lemma split_two c s a b :
  split c s = [a; b] <-> s = a ++ c :: b /\ (c ∉ a) /\ (c ∉ b).
Proof.
  split.
  - intros E. pose proof (join_split c s) as J. rewrite E in J. simpl in J.
    pose proof (split_parts_no_sep c s) as F. rewrite E in F.
    inversion F as [|? ? Ha F']; inversion F'; subst. done.
  - intros (-> & Ha & Hb). rewrite split_app_sep by done.
    by rewrite split_no_sep.
Qed.

Lemma split_one c s a : split c s = [a] <-> s = a /\ c ∉ a.
Proof.
  split.
  - intros E. pose proof (join_split c s) as J. rewrite E in J. simpl in J.
    pose proof (split_parts_no_sep c s) as F. rewrite E in F.
    inversion F; subst. done.
  - intros (-> & Ha). by rewrite split_no_sep.
Qed.

Lemma digits_from_ge acc s : acc <= digits_from acc s.
Proof.
  revert acc. induction s as [|c t IH]; intros acc; simpl; [lia|].
  specialize (IH (acc * 10 + (c - 48))). lia.
Qed.

Lemma parse_digits_bound acc s n :
  acc <= USIZE_MAX -> parse_digits acc s = Some n -> n <= USIZE_MAX.
Proof.
  revert acc. induction s as [|c t IH]; intros acc Hacc H; simpl in H.
  - congruence.
  - destruct (digit_value c); [|done].
    destruct (N.ltb_spec USIZE_MAX (acc * 10)); [done|].
    destruct (N.ltb_spec USIZE_MAX (acc * 10 + n0)); [done|].
    eapply IH; [|exact H]. lia.
Qed.

Lemma parse_usize_bound s n : parse_usize s = Some n -> n <= USIZE_MAX.
Proof.
  unfold parse_usize. destruct s as [|c t]; [done|].
  destruct (c =? 43).
  - destruct t; [done|]. apply parse_digits_bound. unfold USIZE_MAX. lia.
  - apply parse_digits_bound. unfold USIZE_MAX. lia.
Qed.

(** On a string of decimal digits, [parse_digits] yields its value exactly
    when the value fits in [usize]. *)
Lemma parse_digits_value acc s :
  acc <= USIZE_MAX -> Forall (fun c => is_digit c = true) s ->
  parse_digits acc s =
    if digits_from acc s <=? USIZE_MAX then Some (digits_from acc s) else None.
Proof.
  revert acc. induction s as [|c t IH]; intros acc Hacc Hd; simpl.
  - unfold digits_from. simpl. destruct (N.leb_spec acc USIZE_MAX); [done|lia].
  - inversion Hd as [|? ? Hc Ht]; subst.
    unfold digit_value. unfold is_digit in Hc. rewrite Hc.
    pose proof (digits_from_ge (acc * 10 + (c - 48)) t) as Hge.
    unfold digits_from in *. simpl.
    destruct (N.ltb_spec USIZE_MAX (acc * 10)).
    { destruct (N.leb_spec (fold_left (fun a c0 => a * 10 + (c0 - 48)) t
                              (acc * 10 + (c - 48))) USIZE_MAX); [lia|done]. }
    destruct (N.ltb_spec USIZE_MAX (acc * 10 + (c - 48))).
    { destruct (N.leb_spec (fold_left (fun a c0 => a * 10 + (c0 - 48)) t
                              (acc * 10 + (c - 48))) USIZE_MAX); [lia|done]. }
    apply IH; [lia|done].
Qed.

Lemma parse_query_ok q x : parse_query q = Ok x <-> query_form q x.
Proof.
  unfold parse_query, query_form. split.
  - destruct (split SLASH q) as [|a [|b [|? ?]]] eqn:E1; simpl; try discriminate.
    apply split_two in E1 as (-> & Ha & Hb).
    destruct (split HASH b) as [|r [|n [|? ?]]] eqn:E2; try discriminate.
    + intros H. inversion H; subst x; clear H. simpl.
      apply split_one in E2 as (-> & Hr). split_and!; auto.
    + destruct (parse_usize n) as [v|] eqn:Ev; [|discriminate].
      intros H. inversion H; subst x; clear H. simpl.
      apply split_two in E2 as (-> & Hr & Hn).
      rewrite not_elem_of_app, not_elem_of_cons in Hb.
      destruct Hb as (Hbr & _ & Hbn).
      split_and!; auto. right. exists n, v. split_and!; auto.
  - destruct x as [o r i]; simpl.
    intros (Ho & Hr & Hrh & [[-> ->] | (num & n & Hn1 & Hn2 & Hp & -> & ->)]).
    + rewrite (proj2 (split_two SLASH _ o r)) by auto. simpl.
      rewrite (proj2 (split_one HASH r r)) by auto. done.
    + assert (SLASH ∉ r ++ HASH :: num).
      { rewrite not_elem_of_app, not_elem_of_cons. split_and!; auto.
        all: unfold SLASH, HASH; lia. }
      rewrite (proj2 (split_two SLASH _ o (r ++ HASH :: num))) by auto. simpl.
      rewrite (proj2 (split_two HASH _ r num)) by auto. rewrite Hp. done.
Qed.

Lemma parse_query_err q : forall c, parse_query q = Err c -> c = 1.
Proof.
  intros c. unfold parse_query.
  destruct (negb _); [congruence|].
  repeat (case_match; try congruence).
Qed.

(** C5 (counterexample): a query with an empty owner is accepted. *)
Lemma parse_query_accepts_empty_owner :
  parse_query (lit "/repo") = Ok (mkQuery [] (lit "repo") None).
Proof. reflexivity. Qed.

(** C5 (amended): [parse_query] accepts exactly the strings with one ['/']
    whose second part has at most one ['#']: [owner/repo] gives
    [issue_number = None], [owner/repo#N] gives [Some N] when [N] is an
    optional ['+'] and decimal digits whose value fits in [usize]; every
    other string ends in [exit(1)]. Owner and repo may be empty. *)
Theorem parse_query_spec q :
  (forall x, parse_query q = Ok x <-> query_form q x) /\
  (forall c, parse_query q = Err c -> c = 1) /\
  (forall num, num <> [] -> Forall (fun c => is_digit c = true) num ->
     parse_usize num =
       if digits_value num <=? USIZE_MAX then Some (digits_value num)
       else None).
Proof.
  split; [apply parse_query_ok|]. split; [apply parse_query_err|].
  intros [|c t] Hne Hd; [done|].
  unfold parse_usize.
  inversion Hd as [|? ? Hc _]; subst.
  assert (Hc43 : (c =? 43) = false).
  { unfold is_digit, in_range in Hc. apply N.eqb_neq.
    apply andb_prop in Hc as [H1 H2]. apply N.leb_le in H1. lia. }
  rewrite Hc43. apply parse_digits_value; [unfold USIZE_MAX; lia | done].
Qed.

Lemma parse_query_spec_witness :
  parse_query (lit "octocat/Hello-World#12") =
    Ok (mkQuery (lit "octocat") (lit "Hello-World") (Some 12)) /\
  parse_usize (lit "12") = Some 12.
Proof.
  split; [reflexivity|].
  destruct (parse_query_spec (lit "o/r")) as (_ & _ & H).
  rewrite (H (lit "12")); [reflexivity | discriminate | repeat constructor].
Defined.

(** C6 (counterexample): parsing builds a [Query] with an empty owner, and
    one with issue number 0. *)
Lemma parse_query_empty_owner_and_zero_issue :
  parse_query (lit "/repo") = Ok (mkQuery [] (lit "repo") None) /\
  parse_query (lit "owner/repo#0") =
    Ok (mkQuery (lit "owner") (lit "repo") (Some 0)).
Proof. split; reflexivity. Qed.

(** C6 (amended): every [Query] built by parsing has an owner without
    ['/'], a repo without ['/'] or ['#'], and an issue number, if any, at
    most [usize::MAX]; owner and repo may be empty, the number may be 0. *)
Theorem parse_query_invariant q x :
  parse_query q = Ok x ->
  (SLASH ∉ arg_username x) /\ (SLASH ∉ arg_repo x) /\ (HASH ∉ arg_repo x) /\
  (forall n, arg_issue x = Some n -> n <= USIZE_MAX).
Proof.
  intros H. apply parse_query_ok in H as (Ho & Hr & Hh & Hf).
  split_and!; auto. intros n Hn.
  destruct Hf as [[_ Hi] | (num & m & _ & _ & Hp & _ & Hi)]; [congruence|].
  rewrite Hn in Hi. inversion Hi; subst. by apply parse_usize_bound in Hp.
Qed.

Lemma parse_query_invariant_witness :
  parse_query (lit "a/b#7") = Ok (mkQuery (lit "a") (lit "b") (Some 7)) /\
  7 <= USIZE_MAX.
Proof.
  split; [reflexivity|].
  destruct (parse_query_invariant (lit "a/b#7") (mkQuery (lit "a") (lit "b") (Some 7))
              eq_refl) as (_ & _ & _ & H).
  apply H. reflexivity.
Defined.

(** ** Output file names *)

Lemma fold_left_inv {A B} (P : A -> Prop) (f : A -> B -> A) (l : list B) a0 :
  P a0 -> (forall a x, P a -> P (f a x)) -> P (fold_left f l a0).
Proof. revert a0. induction l; intros a0 Ha Hf; simpl; auto. Qed.

Lemma slug_inv_snoc_char p sl x :
  slug_inv (p, sl) -> slug_char x = true -> x <> DASH -> slug_inv (false, sl ++ [x]).
Proof.
  intros (Hf & Hh & Hd & _) Hx Hxd. simpl in *. unfold slug_inv; simpl. split_and!.
  - apply Forall_app; auto.
  - rewrite head_snoc. destruct (head sl) eqn:E; congruence.
  - intros i Hi Hi'.
    apply lookup_snoc_Some in Hi as [[Hlt Hi] | [_ ?]]; [|congruence].
    apply lookup_snoc_Some in Hi' as [[_ Hi'] | [_ ?]]; [|congruence].
    exact (Hd i Hi Hi').
  - intros _. rewrite last_snoc. split; congruence.
Qed.

Lemma slug_inv_snoc_dash sl :
  slug_inv (false, sl) -> slug_inv (true, sl ++ [DASH]).
Proof.
  intros (Hf & Hh & Hd & Hl). simpl in *. specialize (Hl eq_refl) as [Hne Hl].
  unfold slug_inv; simpl. split_and!.
  - apply Forall_app; split; [done|]. constructor; [reflexivity|constructor].
  - rewrite head_snoc. destruct sl; [done|]. simpl in *. done.
  - intros i Hi Hi'.
    apply lookup_snoc_Some in Hi' as [[Hlt Hi'] | [Heq _]].
    + apply lookup_snoc_Some in Hi as [[_ Hi] | [? _]]; [|lia].
      exact (Hd i Hi Hi').
    + apply lookup_snoc_Some in Hi as [[_ Hi] | [? _]]; [|lia].
      apply Hl. rewrite last_lookup. rewrite <- Heq. done.
  - done.
Qed.

Lemma slug_inv_push_char st x : slug_inv st -> slug_inv (push_char st x).
Proof.
  destruct st as [p sl]. intros Hi. unfold push_char.
  destruct (in_range 97 122 x || in_range 48 57 x) eqn:E1.
  { apply (slug_inv_snoc_char p); [exact Hi| |].
    - unfold slug_char.
      destruct (in_range 97 122 x), (in_range 48 57 x); simpl in *; done.
    - intros ->. vm_compute in E1. discriminate. }
  destruct (in_range 65 90 x) eqn:E2.
  { apply (slug_inv_snoc_char p); [exact Hi| |].
    - unfold slug_char, in_range in *. apply andb_prop in E2 as [H1 H2].
      apply N.leb_le in H1; apply N.leb_le in H2.
      apply orb_true_intro; left; apply orb_true_intro; left.
      apply andb_true_intro; split; apply N.leb_le; lia.
    - unfold in_range in E2. apply andb_prop in E2 as [H1 H2].
      apply N.leb_le in H1; apply N.leb_le in H2. unfold DASH. lia. }
  destruct p; [done|]. by apply slug_inv_snoc_dash.
Qed.

Lemma slug_inv_fold translit s :
  slug_inv (fold_left (push_c translit) s (true, [])).
Proof.
  apply fold_left_inv.
  - unfold slug_inv; simpl. split_and!; [constructor|done| |done].
    intros i Hi. done.
  - intros st c Hst. unfold push_c. destruct (c <? 128).
    + by apply slug_inv_push_char.
    + apply fold_left_inv; [done|]. intros; by apply slug_inv_push_char.
Qed.

(** The shape of a slug: only [a-z], [0-9] and ['-'], no leading or
    trailing hyphen, no two hyphens in a row. *)
Lemma slugify_shape translit s :
  let r := slugify translit s in
  Forall (fun c => slug_char c = true) r /\ head r <> Some DASH /\
  last r <> Some DASH /\ no_double_dash r.
Proof.
  pose proof (slug_inv_fold translit s) as (Hf & Hh & Hd & _).
  unfold slugify. set (sl := (fold_left (push_c translit) s (true, [])).2) in *.
  simpl. case_decide as Hl.
  - apply last_Some in Hl as [l' ->]. rewrite removelast_last.
    apply Forall_app in Hf as [Hf _]. split_and!.
    + done.
    + rewrite head_app in Hh. destruct (head l'); [done|]. done.
    + intros Hl'. apply last_Some in Hl' as [l'' ->].
      apply (Hd (length l'')).
      * rewrite <- app_assoc. apply lookup_app_Some. right.
        split; [lia|]. by rewrite Nat.sub_diag.
      * rewrite <- app_assoc. apply lookup_app_Some. right.
        split; [lia|]. by replace (S (length l'') - length l'')%nat with 1%nat by lia.
    + intros i Hi Hi'. apply (Hd i); apply lookup_app_Some; by left.
  - split_and!; auto.
Qed.

Lemma size_nat_bound n : n < 2 ^ N.of_nat (N.size_nat n).
Proof.
  destruct n as [|p]; simpl; [lia|].
  induction p as [p IH|p IH|]; simpl Pos.size_nat;
    rewrite ?Nat2N.inj_succ, ?N.pow_succ_r'; simpl; lia.
Qed.

Lemma digits_value_snoc l d : digits_value (l ++ [d]) = digits_value l * 10 + (d - 48).
Proof. unfold digits_value. by rewrite fold_left_app. Qed.

Lemma pow10_succ k : 10 ^ N.of_nat (S k) = 10 * 10 ^ N.of_nat k.
Proof. by rewrite Nat2N.inj_succ, N.pow_succ_r'. Qed.

Lemma decimal_aux_spec f n acc :
  n < 10 ^ N.of_nat (S f) ->
  exists ds, decimal_aux (S f) n acc = ds ++ acc /\
    Forall (fun c => is_digit c = true) ds /\ digits_value ds = n /\
    ds <> [] /\ n < 10 ^ N.of_nat (length ds) /\
    (1 <= n -> 10 ^ N.of_nat (pred (length ds)) <= n).
Proof.
  revert n acc. induction f as [|f IH]; intros n acc Hn.
  - simpl in Hn. simpl. destruct (N.ltb_spec n 10); [|lia].
    exists [48 + n]. split_and!; [done| |unfold digits_value; simpl; lia|done
                                  |simpl; lia|simpl; lia].
    constructor; [|constructor]. unfold is_digit, in_range.
    apply andb_true_intro; split; apply N.leb_le; lia.
  - change (decimal_aux (S (S f)) n acc) with
      (if n <? 10 then (48 + n) :: acc
       else decimal_aux (S f) (n / 10) ((48 + n mod 10) :: acc)).
    destruct (N.ltb_spec n 10).
    + exists [48 + n]. split_and!; [done| |unfold digits_value; simpl; lia|done
                                    |simpl; lia|simpl; lia].
      constructor; [|constructor]. unfold is_digit, in_range.
      apply andb_true_intro; split; apply N.leb_le; lia.
    + pose proof (N.div_mod n 10 ltac:(lia)) as Hdm.
      pose proof (N.mod_lt n 10 ltac:(lia)) as Hml.
      set (q := n / 10) in *. set (r := n mod 10) in *.
      rewrite pow10_succ in Hn.
      destruct (IH q ((48 + r) :: acc)) as (ds & Heq & Hd & Hv & Hne & Hlt & Hge);
        [lia|].
      exists (ds ++ [48 + r]). rewrite Heq, <- app_assoc. split; [done|].
      split_and!.
      * apply Forall_app; split; [done|]. constructor; [|constructor].
        unfold is_digit, in_range. apply andb_true_intro; split; apply N.leb_le; lia.
      * rewrite digits_value_snoc, Hv. lia.
      * by destruct ds.
      * rewrite length_app, Nat.add_comm. simpl. rewrite pow10_succ. lia.
      * intros _. rewrite length_app, Nat.add_comm. simpl.
        destruct ds as [|c ds']; [done|]. simpl length in *. simpl pred in *.
        rewrite pow10_succ. specialize (Hge ltac:(lia)). lia.
Qed.

Lemma decimal_spec n :
  Forall (fun c => is_digit c = true) (decimal n) /\ digits_value (decimal n) = n /\
  decimal n <> [] /\ n < 10 ^ N.of_nat (length (decimal n)) /\
  (1 <= n -> 10 ^ N.of_nat (pred (length (decimal n))) <= n).
Proof.
  destruct (decimal_aux_spec (N.size_nat n) n []) as (ds & Heq & H).
  - pose proof (size_nat_bound n).
    assert (2 ^ N.of_nat (N.size_nat n) <= 10 ^ N.of_nat (N.size_nat n))
      by (apply N.pow_le_mono_l; lia).
    rewrite pow10_succ. lia.
  - unfold decimal. rewrite Heq, app_nil_r. exact H.
Qed.

Lemma digits_value_zeros k l : digits_value (replicate k 48 ++ l) = digits_value l.
Proof.
  unfold digits_value. rewrite fold_left_app. f_equal.
  induction k as [|k IH]; [done|]. exact IH.
Qed.

(** The [{:03}] rendering of the issue number: decimal digits denoting the
    number, exactly three of them below 1000, the plain decimal form from
    1000 on. *)
Lemma pad3_spec n :
  Forall (fun c => is_digit c = true) (pad3 n) /\ digits_value (pad3 n) = n /\
  (n < 1000 -> length (pad3 n) = 3%nat) /\
  (1000 <= n -> pad3 n = decimal n /\ (4 <= length (pad3 n))%nat).
Proof.
  destruct (decimal_spec n) as (Hd & Hv & Hne & Hlt & Hge).
  unfold pad3. split_and!.
  - apply Forall_app; split; [|done]. apply Forall_replicate. reflexivity.
  - by rewrite digits_value_zeros.
  - intros Hn. rewrite length_app, length_replicate.
    assert (length (decimal n) <= 3)%nat; [|lia].
    destruct (N.eqb_spec n 0) as [->|Hn0]; [vm_compute; lia|].
    destruct (Nat.le_gt_cases (length (decimal n)) 3) as [|Hgt]; [done|].
    specialize (Hge ltac:(lia)).
    assert (10 ^ 3 <= 10 ^ N.of_nat (pred (length (decimal n))))
      by (apply N.pow_le_mono_r; lia).
    simpl in *. lia.
  - intros Hn. assert (4 <= length (decimal n))%nat.
    { destruct (Nat.le_gt_cases 4 (length (decimal n))) as [|Hgt]; [done|].
      assert (10 ^ N.of_nat (length (decimal n)) <= 10 ^ 3)
        by (apply N.pow_le_mono_r; lia).
      simpl in *. lia. }
    replace (3 - length (decimal n))%nat with 0%nat by lia. simpl. done.
Qed.

(** C7: the file name of an issue is the output path, ['/'], the issue
    number zero-padded to three digits (never truncated, unpadded from
    1000 on), ['-'], the slug of the title and [".md"]; the slug contains
    only [a-z], [0-9] and ['-'], does not start or end with ['-'] and has
    no two hyphens in a row. *)
Theorem issue_to_filename_spec translit path issue :
  let n := i_number issue in
  let slug := slugify translit (i_title issue) in
  issue_to_filename translit path issue =
    path ++ lit "/" ++ pad3 n ++ lit "-" ++ slug ++ lit ".md" /\
  Forall (fun c => is_digit c = true) (pad3 n) /\ digits_value (pad3 n) = n /\
  (n < 1000 -> length (pad3 n) = 3%nat) /\
  (1000 <= n -> pad3 n = decimal n /\ (4 <= length (pad3 n))%nat) /\
  Forall (fun c => slug_char c = true) slug /\ head slug <> Some DASH /\
  last slug <> Some DASH /\ no_double_dash slug.
Proof.
  intros n slug.
  destruct (pad3_spec n) as (H1 & H2 & H3 & H4).
  destruct (slugify_shape translit (i_title issue)) as (H5 & H6 & H7 & H8).
  split_and!; auto.
Qed.

Lemma issue_to_filename_spec_witness :
  issue_to_filename (fun _ => [DASH]) (lit "./md")
    (sample_issue 1 (lit "Found a bug")) = lit "./md/001-found-a-bug.md" /\
  length (pad3 1) = 3%nat.
Proof.
  split; [reflexivity|].
  destruct (issue_to_filename_spec (fun _ => [DASH]) (lit "./md")
              (sample_issue 1 (lit "Found a bug"))) as (_ & _ & _ & H & _).
  apply H. simpl. lia.
Defined.

(** ** [mkdir] *)



(** ** [join_all] over the comment fetches *)

Lemma poll_elems_cons_ok e t l' d :
  poll_elems (e :: t) = Ok (l', d) ->
  exists e' b t' dt, poll_elem e = Ok (e', b) /\ poll_elems t = Ok (t', dt) /\
    l' = e' :: t' /\ d = b && dt.
Proof.
  intros H. destruct e as [f|v]; simpl in H.
  - destruct (poll_fetch f) as [f' [[v|]|err]] eqn:Hp; simpl in H;
      unfold poll_elem; rewrite Hp.
    + destruct (poll_elems t) as [[t' dt]|] eqn:Ht; simpl in H; inversion H; subst.
      eexists _, _, _, _. done.
    + destruct (poll_elems t) as [[t' dt]|] eqn:Ht; simpl in H; inversion H; subst.
      eexists _, _, _, _. done.
    + done.
  - destruct (poll_elems t) as [[t' dt]|] eqn:Ht; simpl in H; inversion H; subst.
    eexists _, _, _, _. done.
Qed.

Lemma poll_elems_cons_err e t err :
  poll_elems (e :: t) = Err err ->
  poll_elem e = Err err \/
  exists e' b, poll_elem e = Ok (e', b) /\ poll_elems t = Err err.
Proof.
  intros H. destruct e as [f|v]; simpl in H.
  - unfold poll_elem.
    destruct (poll_fetch f) as [f' [[v|]|err']] eqn:Hp; simpl in H.
    + destruct (poll_elems t) eqn:Ht; simpl in H; inversion H; subst.
      right. eexists _, _. done.
    + destruct (poll_elems t) eqn:Ht; simpl in H; inversion H; subst.
      right. eexists _, _. done.
    + left. congruence.
  - destruct (poll_elems t) eqn:Ht; simpl in H; inversion H; subst.
    right. eexists _, _. done.
Qed.

Lemma poll_elem_wait e e' b :
  poll_elem e = Ok (e', b) -> elem_wait e' = pred (elem_wait e) /\
  (b = false -> (1 <= elem_wait e)%nat) /\
  (b = true -> exists v, e' = Done v) /\
  (b = false -> exists f, e' = Pending f /\ f_started f = true).
Proof.
  destruct e as [f|v]; simpl.
  - unfold poll_fetch. destruct f as [i st [|w] o]; simpl.
    + destruct o; simpl; intros H; inversion H; subst.
      split_and!; try done; eauto.
    + intros H; inversion H; subst. split_and!; try done; eauto. simpl. lia.
  - intros H; inversion H; subst. split_and!; try done; eauto.
Qed.

Lemma poll_elem_corr e0 e e' b :
  corr e0 e -> poll_elem e = Ok (e', b) -> corr e0 e'.
Proof.
  destruct e0 as [f0|v0]; simpl.
  - intros [(st & w & ->) | (cs & Hcs & ->)]; simpl.
    + unfold poll_fetch. destruct w as [|w]; simpl.
      * destruct (f_outcome f0) as [cs|err] eqn:Ho; intros H; inversion H; subst.
        right. eauto.
      * intros H; inversion H; subst. left. eauto.
    + intros H; inversion H; subst. right. eauto.
  - intros -> H. inversion H; subst. done.
Qed.

Lemma poll_elem_corr_err e0 e err :
  corr e0 e -> poll_elem e = Err err -> exists f0, e0 = Pending f0 /\ f_outcome f0 = Err err.
Proof.
  destruct e0 as [f0|v0]; simpl.
  - intros [(st & w & ->) | (cs & Hcs & ->)]; simpl; [|done].
    unfold poll_fetch. destruct w as [|w]; simpl; [|done].
    destruct (f_outcome f0) eqn:Ho; intros H; inversion H; subst. eauto.
  - intros -> H. done.
Qed.

Lemma poll_elems_wait l l' d :
  poll_elems l = Ok (l', d) ->
  map elem_wait l' = map (fun e => pred (elem_wait e)) l /\
  (d = false -> exists e, e ∈ l /\ (1 <= elem_wait e)%nat) /\
  (d = true -> Forall (fun e => exists v, e = Done v) l').
Proof.
  revert l' d. induction l as [|e t IH]; intros l' d H.
  - simpl in H. inversion H; subst. split_and!; done.
  - apply poll_elems_cons_ok in H as (e' & b & t' & dt & He & Ht & -> & ->).
    destruct (IH _ _ Ht) as (Hm & Hf & Hd).
    destruct (poll_elem_wait _ _ _ He) as (Hw & Hb & Hdone & _).
    split_and!.
    + simpl. by rewrite Hw, Hm.
    + intros Hbd. destruct b; simpl in Hbd.
      * destruct (Hf Hbd) as (x & Hx & Hx1). exists x. split; [by right|done].
      * exists e. split; [left|]; auto.
    + intros Hbd. apply andb_prop in Hbd as [-> ->].
      constructor; auto.
Qed.

Lemma list_max_pred xs : (list_max (map pred xs) <= pred (list_max xs))%nat.
Proof. induction xs as [|x xs IH]; simpl; lia. Qed.

Lemma list_max_ge x xs : x ∈ xs -> (x <= list_max xs)%nat.
Proof.
  induction xs as [|y xs IH]; intros H; [by apply not_elem_of_nil in H|].
  apply elem_of_cons in H as [->|H]; simpl; [lia|]. specialize (IH H). lia.
Qed.

(** [Core::run] on the join never runs out of fuel with [join_fuel]. *)
Lemma core_run_not_stuck fuel l :
  (list_max (map elem_wait l) < fuel)%nat -> (core_run fuel l).1 <> Stuck.
Proof.
  revert l. induction fuel as [|fuel IH]; intros l Hl; [lia|].
  simpl. unfold join_all_poll.
  destruct (poll_elems l) as [[l' [|]]|err] eqn:Hp; simpl; try discriminate.
  destruct (poll_elems_wait _ _ _ Hp) as (Hm & Hf & _).
  destruct (Hf eq_refl) as (e & He & He1).
  destruct (core_run fuel l') as [r tr] eqn:Hc. simpl.
  assert (Hr : (core_run fuel l').1 <> Stuck).
  { apply IH. rewrite Hm.
    pose proof (list_max_pred (map elem_wait l)) as Hp'.
    rewrite map_map in Hp'.
    assert (elem_wait e <= list_max (map elem_wait l))%nat.
    { apply list_max_ge. apply list_elem_of_In, in_map, list_elem_of_In. done. }
    lia. }
  by rewrite Hc in Hr.
Qed.

Lemma core_run_join_fuel l : (core_run (join_fuel l) l).1 <> Stuck.
Proof. apply core_run_not_stuck. unfold join_fuel. lia. Qed.

Lemma poll_elems_corr l0 l l' d :
  Forall2 corr l0 l -> poll_elems l = Ok (l', d) -> Forall2 corr l0 l'.
Proof.
  intros Hc. revert l' d. induction Hc as [|e0 e t0 t He Ht IH]; intros l' d H.
  - simpl in H. inversion H; subst. constructor.
  - apply poll_elems_cons_ok in H as (e' & b & t' & dt & Hp & Hpt & -> & ->).
    constructor; [by eapply poll_elem_corr|]. by eapply IH.
Qed.

Lemma poll_elems_corr_err l0 l err :
  Forall2 corr l0 l -> poll_elems l = Err err ->
  exists f0, Pending f0 ∈ l0 /\ f_outcome f0 = Err err.
Proof.
  intros Hc. induction Hc as [|e0 e t0 t He Ht IH]; intros H; [done|].
  apply poll_elems_cons_err in H as [Hp | (e' & b & _ & Hpt)].
  - destruct (poll_elem_corr_err _ _ _ He Hp) as (f0 & -> & Ho).
    exists f0. split; [left|]; done.
  - destruct (IH Hpt) as (f0 & Hin & Ho). exists f0. split; [by right|done].
Qed.

Lemma corr_done_fin l0 l :
  Forall2 corr l0 l -> Forall (fun e => exists v, e = Done v) l ->
  Forall2 fin l0 (omap done_value l).
Proof.
  intros Hc. induction Hc as [|e0 e t0 t He Ht IH]; intros Hd; simpl; [constructor|].
  inversion Hd as [|? ? (v & ->) Hd']; subst. simpl.
  constructor; [|by apply IH].
  destruct e0 as [f0|v0]; simpl in *.
  - destruct He as [(st & w & ?) | (cs & Hcs & Heq)]; [discriminate|].
    inversion Heq; subst. simpl. done.
  - inversion He. done.
Qed.

Lemma corr_refl l : Forall2 corr l l.
Proof.
  induction l as [|[f|v] t IH]; constructor; auto; simpl; [|done].
  left. exists (f_started f), (f_wait f). by destruct f.
Qed.

(** What [Core::run] on the join ends in, relative to the elements it
    started with: an error of one of the fetches, or one value per
    element, in order. *)
Lemma core_run_result fuel l0 l :
  Forall2 corr l0 l ->
  (forall err, (core_run fuel l).1 = Failed err ->
     exists f0, Pending f0 ∈ l0 /\ f_outcome f0 = Err err) /\
  (forall vs, (core_run fuel l).1 = Finished vs -> Forall2 fin l0 vs).
Proof.
  revert l. induction fuel as [|fuel IH]; intros l Hc; simpl; [split; discriminate|].
  unfold join_all_poll.
  destruct (poll_elems l) as [[l' [|]]|err] eqn:Hp; simpl.
  - split; [discriminate|]. intros vs Hvs. inversion Hvs; subst.
    apply corr_done_fin; [by eapply poll_elems_corr|].
    by apply (poll_elems_wait _ _ _ Hp).
  - destruct (core_run fuel l') as [r tr] eqn:Hr. simpl.
    pose proof (IH l' (poll_elems_corr _ _ _ _ Hc Hp)) as [H1 H2].
    rewrite Hr in H1, H2. split; [exact H1 | exact H2].
  - split; [|discriminate]. intros e He. inversion He; subst.
    by eapply poll_elems_corr_err.
Qed.

Section RunProofs.
Variable translit : N -> list N.
Variable uri_from_str : rstr -> Result Uri UriError.
Variable net : HyperRequest -> nat * Result Response unit.
Variable de_issue : list N -> option Issue.
Variable de_issues : list N -> option (list Issue).
Variable de_comments : list N -> option (list Comment).
Variable register_template : Result unit Error.
Variable render : IssueWithComments -> Result rstr Error.

Lemma mk_elems_spec g issues elems :
  mk_elems uri_from_str net de_comments g issues = Ok elems ->
  Forall2 (fun i e => exists f, e = Pending f /\ f_issue f = i /\
             f_started f = false /\
             exists req, Github_get uri_from_str g (i_comments_url i) = Sent req /\
               f_wait f = (net req).1 /\
               f_outcome f = Github_get_complete de_comments (net req).2)
    issues elems.
Proof.
  revert elems. induction issues as [|i is IH]; intros elems H; simpl in H.
  - inversion H. constructor.
  - destruct (mk_fetch uri_from_str net de_comments g i) as [e|m] eqn:Hf; [|done].
    destruct (mk_elems uri_from_str net de_comments g is) as [es|m] eqn:Hes; [|done].
    inversion H; subst. constructor; [|by apply IH].
    unfold mk_fetch in Hf.
    destruct (Github_get uri_from_str g (i_comments_url i)) as [m|req] eqn:Hg;
      [done|].
    destruct (net req) as [w resp] eqn:Hn. inversion Hf; subst.
    eexists. split_and!; [reflexivity|reflexivity|reflexivity|].
    exists req. rewrite Hn. done.
Qed.

Lemma serialize_all_stdout path w datas w' :
  serialize_all translit render path w datas = (Ok tt, w') ->
  w_stdout w' = w_stdout w ++
    map (fun d => lit "Writing name " ++
                    issue_to_filename translit path (iwc_issue d)) datas.
Proof.
  revert w. induction datas as [|d ds IH]; intros w H; simpl in H.
  - inversion H; subst. by rewrite app_nil_r.
  - destruct (serialize translit render path w d) as [[[]|e] w1] eqn:Hs; [|done].
    rewrite (IH _ H). unfold serialize in Hs.
    destruct (render d); [|done].
    destruct (file_create (w_fs w) _); [|done].
    inversion Hs; subst. simpl. by rewrite <- app_assoc.
Qed.
End RunProofs.

Lemma in_flight_all l : Forall (fun e => is_in_flight e = true) l -> in_flight l = length l.
Proof.
  unfold in_flight. induction 1 as [|e t He Ht IH]; [done|].
  rewrite filter_cons_True by done. simpl. by rewrite IH.
Qed.

(** The first poll of the join, when no fetch is answered at once, polls
    (and so sends) every one of them. *)
Lemma poll_elems_first l :
  Forall (fun e => exists f, e = Pending f /\ (1 <= f_wait f)%nat) l ->
  exists l', poll_elems l = Ok (l', bool_decide (l = [])) /\
    Forall (fun e => is_in_flight e = true) l' /\ length l' = length l.
Proof.
  induction 1 as [|e t (f & -> & Hw) Ht IH].
  - exists []. done.
  - destruct IH as (t' & Hp & Hf & Hl).
    destruct f as [i st [|w] o]; simpl in Hw; [lia|].
    exists (Pending (mkFetch i true w o) :: t'). simpl. rewrite Hp. simpl.
    split_and!; [done| constructor; done | by rewrite Hl].
Qed.

Lemma fin_pending_ok l vs f :
  Forall2 fin l vs -> Pending f ∈ l -> exists cs, f_outcome f = Ok cs.
Proof.
  induction 1 as [|e v t vs' He Ht IH]; intros Hin; [by apply not_elem_of_nil in Hin|].
  apply elem_of_cons in Hin as [<-|Hin]; [|by apply IH].
  destruct He as [_ Ho]. eauto.
Qed.

Section RunClaims.
Variable translit : N -> list N.
Variable uri_from_str : rstr -> Result Uri UriError.
Variable net : HyperRequest -> nat * Result Response unit.
Variable de_issue : list N -> option Issue.
Variable de_issues : list N -> option (list Issue).
Variable de_comments : list N -> option (list Comment).
Variable register_template : Result unit Error.
Variable render : IssueWithComments -> Result rstr Error.

(** C1 (amended): [join_all] puts no bound on the comment fetches: its
    first poll sends every one of them, so when no response comes back
    at once all [N] fetches are in flight together, whatever [N]. *)
Theorem join_starts_every_fetch g issues elems :
  mk_elems uri_from_str net de_comments g issues = Ok elems ->
  issues <> [] ->
  (forall req, (1 <= (net req).1)%nat) ->
  exists elems' tr, (core_run (join_fuel elems) elems).2 = elems' :: tr /\
    in_flight elems' = length issues.
Proof.
  intros Hm Hne Hnet.
  pose proof (mk_elems_spec uri_from_str net de_comments g issues elems Hm) as Hs.
  assert (Hp : Forall (fun e => exists f, e = Pending f /\ (1 <= f_wait f)%nat) elems).
  { clear Hm Hne. induction Hs as [|i e is es (f & -> & _ & _ & req & _ & Hw & _) _ IH];
      constructor; auto. exists f. rewrite Hw. auto. }
  destruct (poll_elems_first elems Hp) as (l' & Hpe & Hf & Hl).
  assert (Hen : elems <> []).
  { intros ->. inversion Hs; subst. done. }
  rewrite bool_decide_false in Hpe by done.
  unfold join_fuel. simpl. unfold join_all_poll. rewrite Hpe.
  destruct (core_run _ l') as [r tr]. simpl.
  exists l', tr. split; [done|]. rewrite in_flight_all by done.
  rewrite Hl. symmetry. by eapply Forall2_length.
Qed.

(** C2: when the comment fetch of some issue fails, [run] fails with the
    error of a failing fetch (the one failing fetch's error when there is
    only one) before anything is written: the file system and stdout are
    left as they were. *)
Theorem run_fail_fast core_new connector agent args env_token flag_path
    flag_state w github issues elems f e :
  core_new = Ok tt ->
  Github_new connector agent env_token = Ok github ->
  fetch_issues uri_from_str net de_issue de_issues github args flag_state =
    Returns (Ok issues) ->
  mk_elems uri_from_str net de_comments github issues = Ok elems ->
  Pending f ∈ elems -> f_outcome f = Err e ->
  exists e',
    run translit uri_from_str net de_issue de_issues de_comments
      register_template render core_new connector agent args env_token
      flag_path flag_state w = (Exited (Err e'), w) /\
    (exists f', Pending f' ∈ elems /\ f_outcome f' = Err e') /\
    ((forall f' e'', Pending f' ∈ elems -> f_outcome f' = Err e'' -> e'' = e) ->
     e' = e).
Proof.
  intros -> Hg Hf Hm Hin Ho. unfold run. rewrite Hg, Hf, Hm.
  pose proof (core_run_join_fuel elems) as Hns.
  destruct (core_run_result (join_fuel elems) elems elems (corr_refl elems))
    as [Hfail Hfin].
  destruct (core_run (join_fuel elems) elems).1 as [vs|e'|] eqn:Hr.
  - destruct (fin_pending_ok _ _ _ (Hfin vs eq_refl) Hin) as [cs Hcs]. congruence.
  - destruct (Hfail e' eq_refl) as (f' & Hin' & Ho').
    exists e'. split_and!; [done | eauto |]. intros Hu. by apply (Hu f').
  - done.
Qed.

(** C10: a finished join yields one value per issue, in the order of the
    issue list: the issue itself with the comments its own comments
    response deserialized to, in the order of that response (the
    aggregates are these values, mapped in order). A successful run writes
    the files, announced by its "Writing name" lines, in the order of the
    issue list. *)
Theorem run_preserves_issue_order core_new connector agent args env_token
    flag_path flag_state w github issues elems :
  core_new = Ok tt ->
  Github_new connector agent env_token = Ok github ->
  fetch_issues uri_from_str net de_issue de_issues github args flag_state =
    Returns (Ok issues) ->
  mk_elems uri_from_str net de_comments github issues = Ok elems ->
  (forall vs, (core_run (join_fuel elems) elems).1 = Finished vs ->
     Forall2 (fun i v => v.1 = i /\
       exists req, Github_get uri_from_str github (i_comments_url i) = Sent req /\
         Github_get_complete de_comments (net req).2 = Ok v.2) issues vs) /\
  (forall w', run translit uri_from_str net de_issue de_issues de_comments
      register_template render core_new connector agent args env_token
      flag_path flag_state w = (Exited (Ok tt), w') ->
     w_stdout w' = w_stdout w ++
       map (fun i => lit "Writing name " ++ issue_to_filename translit flag_path i)
         issues).
Proof.
  intros Hc Hg Hf Hm.
  pose proof (mk_elems_spec uri_from_str net de_comments github issues elems Hm) as Hs.
  destruct (core_run_result (join_fuel elems) elems elems (corr_refl elems))
    as [_ Hfin].
  assert (Hvs : forall vs, (core_run (join_fuel elems) elems).1 = Finished vs ->
     Forall2 (fun i v => v.1 = i /\
       exists req, Github_get uri_from_str github (i_comments_url i) = Sent req /\
         Github_get_complete de_comments (net req).2 = Ok v.2) issues vs).
  { intros vs Hr. specialize (Hfin vs Hr). clear Hr Hm Hf.
    revert vs Hfin.
    induction Hs as [|i e is es (f & -> & Hi & _ & req & Hgr & _ & Ho) _ IH];
      intros vs Hfin; [by inversion Hfin|].
    apply Forall2_cons_inv_l in Hfin as (v & vs' & [Hv1 Hv2] & Hrest & ->).
    constructor; [|by apply IH].
    split; [congruence|]. exists req. split; [done|]. congruence. }
  split; [exact Hvs|].
  intros w' Hrun. subst core_new. unfold run in Hrun. rewrite Hg, Hf, Hm in Hrun.
  destruct (core_run (join_fuel elems) elems).1 as [vs| |] eqn:Hr; try discriminate.
  assert (Hfst : map fst vs = issues).
  { pose proof (Hvs vs eq_refl) as Hv. clear - Hv.
    induction Hv as [|i v is vs' [Hv _] _ IH]; [done|].
    simpl. by rewrite Hv, IH. }
  destruct register_template; [|discriminate].
  destruct (mkdir (w_fs w) flag_path) as [[[]|e] fs]; [|discriminate].
  destruct (serialize_all translit render flag_path (mkWorld fs (w_stdout w)) _)
    as [r w''] eqn:Hser.
  inversion Hrun; subst.
  apply serialize_all_stdout in Hser. rewrite Hser. simpl. f_equal.
  rewrite !map_map. apply map_ext. intros [i cs]. reflexivity.
Qed.
End RunClaims.

(** C1 (counterexample): with nine issues and every response taking one
    poll, the first poll of the join leaves all nine comment fetches in
    flight at once, more than eight. *)
Lemma join_all_nine_in_flight :
  match mk_elems uri_nonempty ok_net no_comments sample_github (sample_issues 9) with
  | Ok elems =>
      match (core_run (join_fuel elems) elems).2 with
      | elems' :: _ => in_flight elems' = 9%nat
      | [] => False
      end
  | Err _ => False
  end.
Proof. vm_compute. reflexivity. Qed.

Lemma join_starts_every_fetch_witness :
  exists elems' tr,
    (core_run (join_fuel (sample_elems ok_net)) (sample_elems ok_net)).2 = elems' :: tr /\
    in_flight elems' = length (sample_issues 3).
Proof.
  apply (join_starts_every_fetch uri_nonempty ok_net no_comments sample_github).
  - vm_compute. reflexivity.
  - vm_compute. discriminate.
  - intros req. vm_compute. lia.
Defined.

(** A run over the three sample issues against [sample_net], where the
    comments of issue 2 fail with a server error. *)
Lemma run_fail_fast_witness :
  exists e',
    run sample_translit uri_nonempty sample_net (fun _ => None)
      (fun _ => Some (sample_issues 3)) no_comments (Ok tt) sample_render
      (Ok tt) (Ok tt) (lit "agent") sample_query (lit "t") (lit "./md") Open
      sample_world = (Exited (Err e'), sample_world) /\
    (exists f', Pending f' ∈ sample_elems sample_net /\ f_outcome f' = Err e') /\
    ((forall f' e'', Pending f' ∈ sample_elems sample_net -> f_outcome f' = Err e'' ->
        e'' = from_kind (Request (lit "boom"))) ->
     e' = from_kind (Request (lit "boom"))).
Proof.
  destruct (sample_elems sample_net !! 1%nat) as [[f|v]|] eqn:Hf;
    [|vm_compute in Hf; discriminate..].
  apply (run_fail_fast sample_translit uri_nonempty sample_net (fun _ => None)
           (fun _ => Some (sample_issues 3)) no_comments (Ok tt) sample_render
           (Ok tt) (Ok tt) (lit "agent") sample_query (lit "t") (lit "./md") Open
           sample_world sample_github (sample_issues 3) (sample_elems sample_net) f).
  - reflexivity.
  - vm_compute. reflexivity.
  - vm_compute. reflexivity.
  - vm_compute. reflexivity.
  - by eapply list_elem_of_lookup_2.
  - vm_compute in Hf. inversion Hf. vm_compute. reflexivity.
Defined.

(** A successful run over the three sample issues. *)
Lemma run_preserves_issue_order_witness :
  (forall vs, (core_run (join_fuel (sample_elems ok_net)) (sample_elems ok_net)).1 =
       Finished vs ->
     Forall2 (fun i v => v.1 = i /\
       exists req, Github_get uri_nonempty sample_github (i_comments_url i) = Sent req /\
         Github_get_complete no_comments (ok_net req).2 = Ok v.2) (sample_issues 3) vs) /\
  (forall w', run sample_translit uri_nonempty ok_net (fun _ => None)
      (fun _ => Some (sample_issues 3)) no_comments (Ok tt) sample_render
      (Ok tt) (Ok tt) (lit "agent") sample_query (lit "t") (lit "./md") Open
      sample_world = (Exited (Ok tt), w') ->
     w_stdout w' = w_stdout sample_world ++
       map (fun i => lit "Writing name " ++
                       issue_to_filename sample_translit (lit "./md") i)
         (sample_issues 3)) /\
  (run sample_translit uri_nonempty ok_net (fun _ => None)
      (fun _ => Some (sample_issues 3)) no_comments (Ok tt) sample_render
      (Ok tt) (Ok tt) (lit "agent") sample_query (lit "t") (lit "./md") Open
      sample_world).1 = Exited (Ok tt).
Proof.
  destruct (run_preserves_issue_order sample_translit uri_nonempty ok_net
           (fun _ => None) (fun _ => Some (sample_issues 3)) no_comments (Ok tt)
           sample_render (Ok tt) (Ok tt) (lit "agent") sample_query (lit "t")
           (lit "./md") Open sample_world sample_github (sample_issues 3)
           (sample_elems ok_net)) as [H1 H2];
    [reflexivity | vm_compute; reflexivity | vm_compute; reflexivity
    | vm_compute; reflexivity |].
  split_and!; [exact H1 | exact H2 | vm_compute; reflexivity].
Defined.

(** * Further properties of the program *)

(** ** [parse_args] and [parse_query] *)

Lemma digits_not_elem (s : rstr) c :
  Forall (fun x => is_digit x = true) s -> is_digit c = false -> c ∉ s.
Proof.
  intros Hs Hc Hin. rewrite Forall_forall in Hs.
  specialize (Hs c Hin). congruence.
Qed.

Lemma parse_usize_decimal n : n <= USIZE_MAX -> parse_usize (decimal n) = Some n.
Proof.
  intros Hn. destruct (decimal_spec n) as (Hd & Hv & Hne & _).
  unfold parse_usize.
  assert (Hp : parse_digits 0 (decimal n) = Some n).
  { rewrite parse_digits_value by (done || (unfold USIZE_MAX; lia)).
    replace (digits_from 0 (decimal n)) with n by (symmetry; exact Hv).
    destruct (N.leb_spec n USIZE_MAX); [done|lia]. }
  destruct (decimal n) as [|c t]; [done|].
  apply Forall_cons_1 in Hd as [Hc _].
  assert (Hc43 : (c =? 43) = false).
  { unfold is_digit, in_range in Hc. apply N.eqb_neq. intros ->. done. }
  by rewrite Hc43.
Qed.

(** X1: [parse_query] reads back the query it is given: [owner/repo]
    gives the owner, the repo and no issue number, and [owner/repo#N]
    with [N] written in decimal gives [Some N], for every owner without
    ['/'], repo without ['/'] and ['#'] and [N] up to [usize::MAX]. *)
Theorem parse_query_roundtrip owner repo n :
  (SLASH ∉ owner) -> (SLASH ∉ repo) -> (HASH ∉ repo) -> n <= USIZE_MAX ->
  parse_query (owner ++ SLASH :: repo) = Ok (mkQuery owner repo None) /\
  parse_query (owner ++ SLASH :: repo ++ HASH :: decimal n) =
    Ok (mkQuery owner repo (Some n)).
Proof.
  intros Ho Hr Hh Hn. destruct (decimal_spec n) as (Hd & _).
  split; apply parse_query_ok; unfold query_form; simpl; split_and!; auto.
  right. exists (decimal n), n. split_and!; auto.
  - apply digits_not_elem; [done|reflexivity].
  - apply digits_not_elem; [done|reflexivity].
  - by apply parse_usize_decimal.
Qed.

Lemma parse_query_roundtrip_witness :
  parse_query (lit "octocat" ++ SLASH :: lit "Hello-World") =
    Ok (mkQuery (lit "octocat") (lit "Hello-World") None) /\
  parse_query (lit "octocat" ++ SLASH :: lit "Hello-World" ++ HASH :: decimal 1347) =
    Ok (mkQuery (lit "octocat") (lit "Hello-World") (Some 1347)).
Proof.
  apply parse_query_roundtrip.
  - vm_compute. by intros Hin; repeat (apply elem_of_cons in Hin as [Hin|Hin]; [discriminate|]);
      apply not_elem_of_nil in Hin.
  - vm_compute. by intros Hin; repeat (apply elem_of_cons in Hin as [Hin|Hin]; [discriminate|]);
      apply not_elem_of_nil in Hin.
  - vm_compute. by intros Hin; repeat (apply elem_of_cons in Hin as [Hin|Hin]; [discriminate|]);
      apply not_elem_of_nil in Hin.
  - vm_compute. discriminate.
Defined.

(** X4: with a token and no [--version], [parse_args] returns the
    arguments with the token and the parsed query exactly when the query
    has the accepted form; any other query ends the process with code 1
    after printing "Wrong argument: <query>." and the usage on stderr. *)
Theorem parse_args_query name version d token :
  flag_version d = false ->
  (forall q, query_form (arg_query d) q ->
     parse_args name version (Ok d) (Some token) = ArgsOk (mkArgs d token q)) /\
  ((forall q, ~ query_form (arg_query d) q) ->
     parse_args name version (Ok d) (Some token) =
       Exit 1 [] [wrong_argument (arg_query d)]).
Proof.
  intros Hv. simpl. rewrite Hv. split.
  - intros q Hq. apply parse_query_ok in Hq. by rewrite Hq.
  - intros Hn. destruct (parse_query (arg_query d)) as [q|c] eqn:Hp.
    + apply parse_query_ok in Hp. by destruct (Hn q).
    + by rewrite (parse_query_err _ c Hp).
Qed.

Lemma parse_args_query_witness :
  parse_args (lit "github-issues-export") (lit "0.1.0")
    (Ok (mkDocoptArgs false (lit "octocat/Hello-World#7") (lit "./md") Open))
    (Some (lit "t")) =
  ArgsOk (mkArgs (mkDocoptArgs false (lit "octocat/Hello-World#7") (lit "./md") Open)
            (lit "t") (mkQuery (lit "octocat") (lit "Hello-World") (Some 7))) /\
  parse_args (lit "github-issues-export") (lit "0.1.0")
    (Ok (mkDocoptArgs false (lit "octocat") (lit "./md") Open)) (Some (lit "t")) =
  Exit 1 [] [wrong_argument (lit "octocat")].
Proof.
  split.
  - apply (parse_args_query (lit "github-issues-export") (lit "0.1.0")
             (mkDocoptArgs false (lit "octocat/Hello-World#7") (lit "./md") Open)
             (lit "t") eq_refl).
    apply parse_query_ok. vm_compute. reflexivity.
  - apply (parse_args_query (lit "github-issues-export") (lit "0.1.0")
             (mkDocoptArgs false (lit "octocat") (lit "./md") Open) (lit "t") eq_refl).
    intros q Hq. apply parse_query_ok in Hq. vm_compute in Hq. discriminate.
Defined.

(** ** [main]'s report of a failed [get] *)

(** X5: when a response has a non-success status, [main] prints the single
    line "Error: request failed: '<body>'" and exits with code 1 if the body
    is valid UTF-8; otherwise the single line is the [Utf8Error]'s message.
    No "Caused by" line follows in either case. *)
Theorem main_report_nonsuccess display_foreign {T} (de : list N -> option T)
    status body e :
  is_success status = false ->
  Github_get_complete de (Ok (mkResponse status (Ok body))) = Err e ->
  main_report display_foreign (Err e) =
    match from_utf8 body with
    | Some s => ([lit "Error: request failed: '" ++ s ++ lit "'"], 1)
    | None => ([lit "Error: " ++ display_foreign Utf8], 1)
    end.
Proof.
  intros Hs H. simpl in H. rewrite Hs in H. simpl in H.
  destruct (from_utf8 body); inversion H; subst; reflexivity.
Qed.

Lemma main_report_nonsuccess_witness :
  main_report (fun _ => []) (Err (from_kind (Request (lit "Not Found")))) =
    ([lit "Error: request failed: 'Not Found'"], 1).
Proof.
  apply (main_report_nonsuccess _ (fun _ => Some tt) 404 (lit "Not Found")).
  - reflexivity.
  - vm_compute. reflexivity.
Defined.

(** X6: when a success response's body does not deserialize, [main]
    prints "Error: Could not parse response from server", then one
    "Caused by:" line with the [serde_json] error, and exits with code 1. *)
Theorem main_report_bad_json display_foreign {T} (de : list N -> option T)
    status body e :
  is_success status = true -> de body = None ->
  Github_get_complete de (Ok (mkResponse status (Ok body))) = Err e ->
  main_report display_foreign (Err e) =
    ([lit "Error: Could not parse response from server";
      lit "Caused by: " ++ display_foreign Json], 1).
Proof.
  intros Hs Hd H. simpl in H. rewrite Hs, Hd in H. simpl in H.
  inversion H; subst. reflexivity.
Qed.

Lemma main_report_bad_json_witness :
  main_report (fun _ => lit "expected value") 
    (Github_get_complete (fun _ => @None unit) (Ok (mkResponse 200 (Ok (lit "<html>"))))) =
    ([lit "Error: Could not parse response from server";
      lit "Caused by: expected value"], 1).
Proof.
  apply (main_report_bad_json (fun _ => lit "expected value") (fun _ => @None unit)
           200 (lit "<html>")); reflexivity.
Defined.

(** ** [slug::slugify] and [issue_to_filename] *)

Lemma no_double_dash_tail c t : no_double_dash (c :: t) -> no_double_dash t.
Proof. intros H i Hi. exact (H (S i) Hi). Qed.

(** The [slugify] loop copies a string already made of slug characters
    without two hyphens in a row. *)
Lemma slug_fold_id translit t p acc :
  Forall (fun c => slug_char c = true) t -> no_double_dash t ->
  (p = true -> head t <> Some DASH) ->
  fold_left (push_c translit) t (p, acc) =
    (match last t with None => p | Some c => c =? DASH end, acc ++ t).
Proof.
  revert p acc. induction t as [|c t IH]; intros p acc Hs Hd Hp; simpl.
  - by rewrite app_nil_r.
  - apply Forall_cons_1 in Hs as [Hc Ht].
    assert (Hlt : (c <? 128) = true).
    { unfold slug_char, in_range, DASH in Hc. apply N.ltb_lt.
      repeat (apply orb_true_iff in Hc as [Hc|Hc]);
        [apply andb_true_iff in Hc as [_ Hc]; apply N.leb_le in Hc; lia
        |apply andb_true_iff in Hc as [_ Hc]; apply N.leb_le in Hc; lia
        |apply N.eqb_eq in Hc; lia]. }
    unfold push_c at 2. rewrite Hlt. unfold push_char.
    rewrite last_cons.
    destruct (in_range 97 122 c || in_range 48 57 c) eqn:Ha.
    + rewrite IH; [|done|by eapply no_double_dash_tail|done].
      rewrite <- app_assoc. simpl.
      destruct (last t); [done|].
      f_equal. symmetry. apply N.eqb_neq. intros ->. done.
    + assert (c = DASH) as ->.
      { unfold slug_char in Hc. rewrite Ha in Hc. by apply N.eqb_eq. }
      destruct (in_range 65 90 DASH) eqn:Hu; [done|].
      destruct p; [by destruct Hp|].
      rewrite IH; [|done|by eapply no_double_dash_tail|].
      * rewrite <- app_assoc. simpl. destruct (last t); [done|]. reflexivity.
      * intros _ Hh. destruct t as [|c' t]; [done|]. simpl in Hh.
        injection Hh as ->. apply (Hd 0%nat); done.
Qed.

(** X7: [slugify] leaves a string unchanged exactly when it is already a
    slug: only [a-z], [0-9] and ['-'], not starting or ending with ['-'],
    no two hyphens in a row. In particular slugifying a slug again gives
    the same slug. *)
Theorem slugify_fixed translit s :
  slugify translit s = s <->
  Forall (fun c => slug_char c = true) s /\ head s <> Some DASH /\
  last s <> Some DASH /\ no_double_dash s.
Proof.
  split.
  - intros H. rewrite <- H. apply slugify_shape.
  - intros (Hs & Hh & Hl & Hd). unfold slugify.
    rewrite slug_fold_id by done. simpl. case_decide; done.
Qed.

Lemma slugify_fixed_witness :
  slugify sample_translit (lit "found-a-bug") = lit "found-a-bug" /\
  slugify sample_translit (slugify sample_translit (lit "Found a BUG!")) =
    slugify sample_translit (lit "Found a BUG!").
Proof.
  split.
  - vm_compute. reflexivity.
  - apply slugify_fixed. apply slugify_shape.
Defined.

Lemma app_sep_inj (c : N) a b x y :
  c ∉ a -> c ∉ b -> a ++ c :: x = b ++ c :: y -> a = b /\ x = y.
Proof.
  revert b. induction a as [|u a IH]; intros b Ha Hb H; destruct b as [|v b]; simpl in H.
  - by injection H.
  - injection H as -> _. destruct Hb. apply list_elem_of_here.
  - injection H as <- _. destruct Ha. apply list_elem_of_here.
  - injection H as -> H.
    rewrite not_elem_of_cons in Ha, Hb.
    destruct (IH b (proj2 Ha) (proj2 Hb) H) as [-> ->]. done.
Qed.

(** The number and the slug can be read back from a file name. *)
Lemma issue_to_filename_inv translit path i1 i2 :
  issue_to_filename translit path i1 = issue_to_filename translit path i2 ->
  i_number i1 = i_number i2 /\
  slugify translit (i_title i1) = slugify translit (i_title i2).
Proof.
  unfold issue_to_filename. intros H.
  apply app_inv_head in H. simpl in H. injection H as H.
  destruct (pad3_spec (i_number i1)) as (Hd1 & Hv1 & _).
  destruct (pad3_spec (i_number i2)) as (Hd2 & Hv2 & _).
  apply app_sep_inj in H as [Hp Hs].
  - split; [congruence|]. by apply app_inv_tail in Hs.
  - apply digits_not_elem; [done|reflexivity].
  - apply digits_not_elem; [done|reflexivity].
Qed.

(** X8: two issues are written to the same file exactly when they have
    the same number and their titles have the same slug; issues with
    different numbers never share a file. *)
Theorem issue_to_filename_same translit path i1 i2 :
  issue_to_filename translit path i1 = issue_to_filename translit path i2 <->
  i_number i1 = i_number i2 /\
  slugify translit (i_title i1) = slugify translit (i_title i2).
Proof.
  split; [apply issue_to_filename_inv|].
  intros [Hn Hs]. unfold issue_to_filename. by rewrite Hn, Hs.
Qed.

Lemma issue_to_filename_same_witness :
  issue_to_filename sample_translit (lit "./md") (sample_issue 1 (lit "Found a bug")) =
  issue_to_filename sample_translit (lit "./md") (sample_issue 1 (lit "found  A bug!")) /\
  issue_to_filename sample_translit (lit "./md") (sample_issue 1 (lit "Found a bug")) <>
  issue_to_filename sample_translit (lit "./md") (sample_issue 10 (lit "Found a bug")).
Proof.
  split.
  - apply issue_to_filename_same. split; [reflexivity|vm_compute; reflexivity].
  - intros H. apply issue_to_filename_same in H as [H _]. discriminate.
Defined.

(** ** [serialize] and the output files *)

(** X11: when rendering an issue fails, [serialize_all] stops there with
    that error: the files of the issues before it stay written (and their
    lines printed), and nothing is written for it or for the issues after
    it. *)
Theorem serialize_all_stops translit render path w pre d post w1 e :
  serialize_all translit render path w pre = (Ok tt, w1) ->
  render d = Err e ->
  serialize_all translit render path w (pre ++ d :: post) = (Err e, w1).
Proof.
  revert w. induction pre as [|d0 pre IH]; intros w Hp Hd; simpl in *.
  - inversion Hp; subst. unfold serialize. by rewrite Hd.
  - destruct (serialize translit render path w d0) as [[]  w0]; [|done].
    by apply IH.
Qed.

Lemma serialize_all_stops_witness :
  serialize_all sample_translit
    (fun d => if decide (i_number (iwc_issue d) = 2) then Err (from_kind HbRender)
              else sample_render d)
    (lit "./md") (mkWorld {[ lit "./md" := DirEntry true ]} [])
    ([mkIssueWithComments (sample_issue 1 (lit "First")) []] ++
     mkIssueWithComments (sample_issue 2 (lit "Second")) [] ::
     [mkIssueWithComments (sample_issue 3 (lit "Third")) []]) =
  (Err (from_kind HbRender),
   mkWorld (<[lit "./md/001-first.md" := FileEntry (lit "First")]>
              {[ lit "./md" := DirEntry true ]})
     [lit "Writing name ./md/001-first.md"]).
Proof.
  apply serialize_all_stops.
  - vm_compute. reflexivity.
  - vm_compute. reflexivity.
Defined.

Lemma fs_lookup_insert_ne (fs : FS) i j x : i <> j -> <[i := x]> fs !! j = fs !! j.
Proof. apply lookup_insert_ne. Qed.

Lemma fs_lookup_insert_eq (fs : FS) i x : <[i := x]> fs !! i = Some x.
Proof. apply lookup_insert_eq. Qed.

Lemma serialize_all_other_paths translit render path w datas r w' p :
  (p ∉ map (fun d => issue_to_filename translit path (iwc_issue d)) datas) ->
  serialize_all translit render path w datas = (r, w') ->
  w_fs w' !! p = w_fs w !! p.
Proof.
  revert w. induction datas as [|d ds IH]; intros w Hp H; simpl in H.
  - by inversion H.
  - rewrite map_cons, not_elem_of_cons in Hp. destruct Hp as [Hne Hp].
    destruct (serialize translit render path w d) as [[u|e] w0] eqn:Hs.
    + rewrite (IH w0 Hp H). unfold serialize in Hs.
      destruct (render d); [|done].
      destruct (file_create (w_fs w) _) as [fs|k] eqn:Hc; [|by inversion Hs].
      inversion Hs; subst. simpl.
      rewrite fs_lookup_insert_ne by congruence.
      unfold file_create in Hc.
      destruct (w_fs w !! _) as [[]|] eqn:Hl; [done| |].
      * inversion Hc; subst. by rewrite fs_lookup_insert_ne by congruence.
      * destruct (w_fs w !! dirname _) as [[[]|]|]; inversion Hc; subst.
        by rewrite fs_lookup_insert_ne by congruence.
    + inversion H; subst. unfold serialize in Hs.
      destruct (render d); [|by inversion Hs].
      destruct (file_create (w_fs w) _); by inversion Hs.
Qed.

(** After a successful [serialize_all] over issues with distinct numbers,
    the file of each issue holds its rendered markdown. *)
Lemma serialize_all_files translit render path w datas w' :
  serialize_all translit render path w datas = (Ok tt, w') ->
  NoDup (map (fun d => i_number (iwc_issue d)) datas) ->
  Forall (fun d => exists md, render d = Ok md /\
            w_fs w' !! issue_to_filename translit path (iwc_issue d) = Some (FileEntry md))
    datas.
Proof.
  revert w. induction datas as [|d ds IH]; intros w H Hnd; [constructor|].
  simpl in H. rewrite map_cons in Hnd. apply NoDup_cons in Hnd as [Hn Hnd].
  destruct (serialize translit render path w d) as [[u|e] w0] eqn:Hs; [|done].
  constructor; [|by eapply IH].
  unfold serialize in Hs. destruct (render d) as [md|e]; [|done].
  destruct (file_create (w_fs w) _) as [fs|k]; [|done].
  inversion Hs; subst. exists md. split; [done|].
  erewrite serialize_all_other_paths; [| |exact H].
  - simpl. apply fs_lookup_insert_eq.
  - intros Hin. apply list_elem_of_fmap in Hin as (d' & Heq & Hin').
    apply issue_to_filename_inv in Heq as [Heq _].
    apply Hn. apply list_elem_of_fmap. eauto.
Qed.

(** ** [run] end to end *)

Section RunExtras.
Variable translit : N -> list N.
Variable uri_from_str : rstr -> Result Uri UriError.
Variable net : HyperRequest -> nat * Result Response unit.
Variable de_issue : list N -> option Issue.
Variable de_issues : list N -> option (list Issue).
Variable de_comments : list N -> option (list Comment).
Variable register_template : Result unit Error.
Variable render : IssueWithComments -> Result rstr Error.

(** The values of a finished join: each issue with the comments of its own
    response, in the order of the issues. *)
Lemma join_finished_values g issues elems vs :
  mk_elems uri_from_str net de_comments g issues = Ok elems ->
  (core_run (join_fuel elems) elems).1 = Finished vs ->
  Forall2 (fun i v => v.1 = i /\
    exists req, Github_get uri_from_str g (i_comments_url i) = Sent req /\
      Github_get_complete de_comments (net req).2 = Ok v.2) issues vs.
Proof.
  intros Hm Hr.
  pose proof (mk_elems_spec uri_from_str net de_comments g issues elems Hm) as Hs.
  destruct (core_run_result (join_fuel elems) elems elems (corr_refl elems))
    as [_ Hfin].
  specialize (Hfin vs Hr). clear Hr Hm. revert vs Hfin.
  induction Hs as [|i e is es (f & -> & Hi & _ & req & Hgr & _ & Ho) _ IH];
    intros vs Hfin; [by inversion Hfin|].
  apply Forall2_cons_inv_l in Hfin as (v & vs' & [Hv1 Hv2] & Hrest & ->).
  constructor; [|by apply IH].
  split; [congruence|]. exists req. split; [done|]. congruence.
Qed.

(** X12: after a successful run over issues with distinct numbers, the
    output directory holds one file per issue, and the file of each issue
    holds the markdown rendered from that issue and the comments its own
    comments request returned. *)
Theorem run_writes_every_issue core_new connector agent args env_token
    flag_path flag_state w w' github issues :
  Github_new connector agent env_token = Ok github ->
  fetch_issues uri_from_str net de_issue de_issues github args flag_state =
    Returns (Ok issues) ->
  NoDup (map i_number issues) ->
  run translit uri_from_str net de_issue de_issues de_comments
    register_template render core_new connector agent args env_token
    flag_path flag_state w = (Exited (Ok tt), w') ->
  Forall (fun i => exists req cs md,
      Github_get uri_from_str github (i_comments_url i) = Sent req /\
      Github_get_complete de_comments (net req).2 = Ok cs /\
      render (mkIssueWithComments i cs) = Ok md /\
      w_fs w' !! issue_to_filename translit flag_path i = Some (FileEntry md))
    issues.
Proof.
  intros Hg Hf Hnd Hrun. unfold run in Hrun.
  destruct core_new as [u|e]; [|discriminate]. rewrite Hg, Hf in Hrun.
  destruct (mk_elems uri_from_str net de_comments github issues) as [elems|m]
    eqn:Hm; [|discriminate].
  destruct (core_run (join_fuel elems) elems).1 as [vs| |] eqn:Hr; try discriminate.
  pose proof (join_finished_values _ _ _ _ Hm Hr) as Hv.
  destruct register_template; [|discriminate].
  destruct (mkdir (w_fs w) flag_path) as [[[]|e] fs]; [|discriminate].
  destruct (serialize_all translit render flag_path (mkWorld fs (w_stdout w)) _)
    as [r w''] eqn:Hser.
  inversion Hrun; subst.
  set (datas := map (fun '(issue, comments) => mkIssueWithComments issue comments) vs)
    in Hser.
  assert (Hmap : map (fun d => i_number (iwc_issue d)) datas = map i_number issues).
  { subst datas. clear - Hv. induction Hv as [|i v is vs' [<- _] _ IH]; [done|].
    destruct v as [i cs]. simpl. by rewrite IH. }
  rewrite <- Hmap in Hnd.
  pose proof (serialize_all_files _ _ _ _ _ _ Hser Hnd) as Hfiles.
  subst datas. clear - Hv Hfiles.
  induction Hv as [|i [i' cs] is vs' [Hi (req & Hreq & Hc)] _ IH]; [constructor|].
  simpl in *. subst i'. apply Forall_cons_1 in Hfiles as [(md & Hmd & Hl) Hfiles].
  constructor; [|by apply IH].
  exists req, cs, md. done.
Qed.

(** X13: when there is no issue to export (an empty list from the
    server), the run still creates the output directory (or fails as
    [mkdir] does), writes no file and prints nothing. *)
Theorem run_no_issues core_new connector agent args env_token flag_path
    flag_state w github :
  core_new = Ok tt ->
  Github_new connector agent env_token = Ok github ->
  fetch_issues uri_from_str net de_issue de_issues github args flag_state =
    Returns (Ok []) ->
  register_template = Ok tt ->
  run translit uri_from_str net de_issue de_issues de_comments
    register_template render core_new connector agent args env_token
    flag_path flag_state w =
    (Exited (mkdir (w_fs w) flag_path).1,
     mkWorld (mkdir (w_fs w) flag_path).2 (w_stdout w)).
Proof.
  intros -> Hg Hf Ht. unfold run. rewrite Hg, Hf, Ht. simpl.
  destruct (mkdir (w_fs w) flag_path) as [[[]|e] fs]; reflexivity.
Qed.
End RunExtras.

Lemma run_writes_every_issue_witness :
  Forall (fun i => exists req cs md,
      Github_get uri_nonempty sample_github (i_comments_url i) = Sent req /\
      Github_get_complete no_comments (ok_net req).2 = Ok cs /\
      sample_render (mkIssueWithComments i cs) = Ok md /\
      w_fs (run sample_translit uri_nonempty ok_net (fun _ => None)
              (fun _ => Some (sample_issues 3)) no_comments (Ok tt) sample_render
              (Ok tt) (Ok tt) (lit "agent") sample_query (lit "t") (lit "./md") Open
              sample_world).2
        !! issue_to_filename sample_translit (lit "./md") i = Some (FileEntry md))
    (sample_issues 3).
Proof.
  apply (run_writes_every_issue sample_translit uri_nonempty ok_net (fun _ => None)
           (fun _ => Some (sample_issues 3)) no_comments (Ok tt) sample_render
           (Ok tt) (Ok tt) (lit "agent") sample_query (lit "t") (lit "./md") Open
           sample_world _ sample_github).
  - vm_compute. reflexivity.
  - vm_compute. reflexivity.
  - refine (bool_decide_unpack _ _). vm_compute. reflexivity.
  - vm_compute. reflexivity.
Defined.

Lemma run_no_issues_witness :
  run sample_translit uri_nonempty ok_net (fun _ => None) (fun _ => Some [])
    no_comments (Ok tt) sample_render (Ok tt) (Ok tt) (lit "agent") sample_query
    (lit "t") (lit "./md") Open sample_world =
  (Exited (Ok tt), mkWorld (<[lit "./md" := DirEntry true]> (w_fs sample_world)) []).
Proof.
  rewrite (run_no_issues sample_translit uri_nonempty ok_net (fun _ => None)
             (fun _ => Some []) no_comments (Ok tt) sample_render (Ok tt) (Ok tt)
             (lit "agent") sample_query (lit "t") (lit "./md") Open sample_world
             sample_github); [|reflexivity..].
  vm_compute. reflexivity.
Defined.

(** ** Which failure the join reports *)

Lemma poll_elems_cons_eq e t :
  poll_elems (e :: t) =
    match poll_elem e with
    | Err err => Err err
    | Ok (e', b) => let? r := poll_elems t in Ok (e' :: r.1, b && r.2)
    end.
Proof.
  destruct e as [f|v]; simpl; [|by destruct (poll_elems t)].
  unfold poll_elem. destruct (poll_fetch f) as [f' [[v|]|err]]; [| |done].
  - by destruct (poll_elems t).
  - by destruct (poll_elems t).
Qed.

Lemma poll_elems_prefix_err pre x post err :
  (forall y, y ∈ pre -> exists r, poll_elem y = Ok r) ->
  poll_elem x = Err err ->
  poll_elems (pre ++ x :: post) = Err err.
Proof.
  induction pre as [|y pre IH]; intros Hpre Hx; cbn [app].
  - rewrite poll_elems_cons_eq, Hx. done.
  - rewrite poll_elems_cons_eq.
    destruct (Hpre y (list_elem_of_here _ _)) as [[y' b] ->].
    rewrite IH; [done| |done].
    intros z Hz. apply Hpre. by right.
Qed.

Lemma poll_elems_all_ok l :
  (forall y, y ∈ l -> exists r, poll_elem y = Ok r) ->
  exists l' d, poll_elems l = Ok (l', d).
Proof.
  induction l as [|y l IH]; intros Hl; [by exists [], true|].
  rewrite poll_elems_cons_eq.
  destruct (Hl y (list_elem_of_here _ _)) as [[y' b] ->].
  destruct IH as (l' & d & ->); [intros z Hz; apply Hl; by right|].
  simpl. eauto.
Qed.

Lemma poll_elems_step l l' d :
  poll_elems l = Ok (l', d) ->
  Forall2 (fun y y' => exists b, poll_elem y = Ok (y', b)) l l'.
Proof.
  revert l' d. induction l as [|y l IH]; intros l' d H.
  - simpl in H. inversion H. constructor.
  - apply poll_elems_cons_ok in H as (y' & b & t' & dt & Hy & Ht & -> & _).
    constructor; eauto.
Qed.

(** A pending element after a poll was pending before, one poll further
    from its answer, with the same outcome. *)
Lemma poll_elem_fail_back y y' b k err :
  poll_elem y = Ok (y', b) -> fail_at y' k err -> fail_at y (S k) err.
Proof.
  intros H (g & -> & Hw & Ho). destruct y as [f|v]; simpl in H.
  - unfold poll_fetch in H. destruct f as [i st [|w] o]; simpl in H.
    + destruct o; inversion H.
    + inversion H; subst. exists (mkFetch i st (S w) o). simpl in *.
      split_and!; [reflexivity|lia|done].
  - inversion H.
Qed.

Lemma poll_elem_fail_fwd y y' b k err :
  poll_elem y = Ok (y', b) -> fail_at y (S k) err -> fail_at y' k err.
Proof.
  intros H (g & -> & Hw & Ho). simpl in H. unfold poll_fetch in H.
  rewrite Hw in H. inversion H; subst. eexists. split_and!; [reflexivity|done|done].
Qed.

Lemma poll_elem_not_now y :
  (forall err, ~ fail_at y 0 err) -> exists r, poll_elem y = Ok r.
Proof.
  intros H. destruct y as [f|v]; simpl; [|eauto].
  unfold poll_fetch. destruct f as [i st [|w] o]; simpl; [|eauto].
  destruct o as [cs|err]; [eauto|].
  destruct (H err). eexists. split_and!; [reflexivity|done|done].
Qed.

Lemma Forall2_elem_of_r {A B} (P : A -> B -> Prop) l l' y' :
  Forall2 P l l' -> y' ∈ l' -> exists y, y ∈ l /\ P y y'.
Proof.
  induction 1 as [|y z l l' Hp _ IH]; intros Hin; [by apply not_elem_of_nil in Hin|].
  apply elem_of_cons in Hin as [->|Hin].
  - exists y. split; [left|]; done.
  - destruct (IH Hin) as (x & Hx & Hpx). exists x. split; [by right|done].
Qed.

(** When some fetch fails, the join fails with the error of the failing
    fetch that answers first; of those answering at the same poll, the
    one that comes first in the list. *)
Lemma join_first_failure fuel pre x post k err :
  fail_at x k err ->
  (forall y k' e', y ∈ pre ++ x :: post -> fail_at y k' e' -> (k <= k')%nat) ->
  (forall y k' e', y ∈ pre -> fail_at y k' e' -> (k < k')%nat) ->
  (k < fuel)%nat ->
  (core_run fuel (pre ++ x :: post)).1 = Failed err.
Proof.
  revert fuel pre x post. induction k as [|k IH]; intros fuel pre x post Hx Hmin Hpre Hf;
    (destruct fuel as [|fuel]; [lia|]); simpl; unfold join_all_poll.
  - rewrite (poll_elems_prefix_err _ _ _ err); [done| |].
    + intros y Hy. apply poll_elem_not_now. intros e' He'.
      specialize (Hpre _ _ _ Hy He'). lia.
    + destruct Hx as (g & -> & Hw & Ho). simpl. unfold poll_fetch.
      rewrite Hw, Ho. done.
  - assert (Hok : forall y, y ∈ pre ++ x :: post -> exists r, poll_elem y = Ok r).
    { intros y Hy. apply poll_elem_not_now. intros e' He'.
      specialize (Hmin _ _ _ Hy He'). lia. }
    destruct (poll_elems_all_ok _ Hok) as (l' & d & Hp).
    pose proof (poll_elems_step _ _ _ Hp) as Hs.
    apply Forall2_app_inv_l in Hs as (pre' & rest' & Hpre' & Hrest & ->).
    apply Forall2_cons_inv_l in Hrest as (x' & post' & (bx & Hxb) & Hpost' & ->).
    pose proof (poll_elem_fail_fwd _ _ _ _ _ Hxb Hx) as Hx'.
    assert (Hd : d = false).
    { destruct d; [|done].
      destruct (poll_elems_wait _ _ _ Hp) as (_ & _ & Hdone).
      specialize (Hdone eq_refl). rewrite Forall_app, Forall_cons in Hdone.
      destruct Hdone as (_ & (v & Hv) & _). destruct Hx' as (g & Hg & _). congruence. }
    rewrite Hp, Hd.
    destruct (core_run fuel (pre' ++ x' :: post')) as [r tr] eqn:Hc. simpl.
    change r with (r, tr).1. rewrite <- Hc.
    apply IH; [done| | |lia].
    + intros y' k' e' Hy' Hf'.
      assert (Hs : Forall2 (fun y y' => exists b, poll_elem y = Ok (y', b))
                     (pre ++ x :: post) (pre' ++ x' :: post')).
      { apply Forall2_app; [done|]. constructor; eauto. }
      destruct (Forall2_elem_of_r _ _ _ _ Hs Hy') as (y & Hy & b & Hyb).
      specialize (Hmin _ _ _ Hy (poll_elem_fail_back _ _ _ _ _ Hyb Hf')). lia.
    + intros y' k' e' Hy' Hf'.
      destruct (Forall2_elem_of_r _ _ _ _ Hpre' Hy') as (y & Hy & b & Hyb).
      specialize (Hpre _ _ _ Hy (poll_elem_fail_back _ _ _ _ _ Hyb Hf')). lia.
Qed.

Section RunFailure.
Variable translit : N -> list N.
Variable uri_from_str : rstr -> Result Uri UriError.
Variable net : HyperRequest -> nat * Result Response unit.
Variable de_issue : list N -> option Issue.
Variable de_issues : list N -> option (list Issue).
Variable de_comments : list N -> option (list Comment).
Variable register_template : Result unit Error.
Variable render : IssueWithComments -> Result rstr Error.

Lemma mk_elems_ok g issues :
  (forall j, j ∈ issues -> exists r, Github_get uri_from_str g (i_comments_url j) = Sent r) ->
  exists elems, mk_elems uri_from_str net de_comments g issues = Ok elems.
Proof.
  induction issues as [|j is IH]; intros H; simpl; [eauto|].
  unfold mk_fetch. destruct (H j (list_elem_of_here _ _)) as [r ->].
  destruct (net r) as [wt resp].
  destruct IH as [es ->]; [intros j' Hj; apply H; by right|]. eauto.
Qed.

(** X14: when several comment fetches fail, the run ends with the error
    of the failing fetch whose response arrives first (after the fewest
    polls of the join); among failing responses arriving at the same
    poll, that of the issue coming first in the list. Nothing is written. *)
Theorem run_reports_earliest_failure core_new connector agent args env_token
    flag_path flag_state w github pre i post req e :
  core_new = Ok tt ->
  Github_new connector agent env_token = Ok github ->
  fetch_issues uri_from_str net de_issue de_issues github args flag_state =
    Returns (Ok (pre ++ i :: post)) ->
  (forall j, j ∈ pre ++ i :: post ->
     exists r, Github_get uri_from_str github (i_comments_url j) = Sent r) ->
  Github_get uri_from_str github (i_comments_url i) = Sent req ->
  Github_get_complete de_comments (net req).2 = Err e ->
  (forall j r e', j ∈ pre ++ i :: post ->
     Github_get uri_from_str github (i_comments_url j) = Sent r ->
     Github_get_complete de_comments (net r).2 = Err e' ->
     ((net req).1 <= (net r).1)%nat) ->
  (forall j r e', j ∈ pre ->
     Github_get uri_from_str github (i_comments_url j) = Sent r ->
     Github_get_complete de_comments (net r).2 = Err e' ->
     ((net req).1 < (net r).1)%nat) ->
  run translit uri_from_str net de_issue de_issues de_comments
    register_template render core_new connector agent args env_token
    flag_path flag_state w = (Exited (Err e), w).
Proof.
  intros -> Hg Hf Hall Hreq He Hmin Hpre.
  destruct (mk_elems_ok _ _ Hall) as [elems Hm].
  pose proof (mk_elems_spec uri_from_str net de_comments github _ elems Hm) as Hs.
  (* what a failing element says about its issue *)
  assert (Hback : forall issues es, Forall2 (fun i e => exists f, e = Pending f /\
               f_issue f = i /\ f_started f = false /\
               exists req, Github_get uri_from_str github (i_comments_url i) = Sent req /\
                 f_wait f = (net req).1 /\
                 f_outcome f = Github_get_complete de_comments (net req).2) issues es ->
            forall y k' e', y ∈ es -> fail_at y k' e' ->
            exists j r, j ∈ issues /\
              Github_get uri_from_str github (i_comments_url j) = Sent r /\
              Github_get_complete de_comments (net r).2 = Err e' /\ k' = (net r).1).
  { intros issues es Hs' y k' e' Hy (g & -> & Hw & Ho).
    apply (Forall2_elem_of_r _ _ _ _ Hs') in Hy
      as (j & Hj & f & Heq & _ & _ & r & Hr & Hw' & Ho').
    injection Heq as <-. exists j, r. split_and!; [done|done|congruence|congruence]. }
  apply Forall2_app_inv_l in Hs as (pre_e & rest_e & Hpre_e & Hrest & Hel).
  apply Forall2_cons_inv_l in Hrest
    as (x & post_e & (f & -> & _ & _ & r & Hr & Hw & Ho) & Hpost & ->).
  rewrite Hreq in Hr. injection Hr as <-.
  assert (Hx : fail_at (Pending f) (net req).1 e).
  { exists f. split_and!; congruence. }
  assert (Hj : (core_run (join_fuel elems) elems).1 = Failed e).
  { rewrite Hel. apply (join_first_failure _ _ _ _ (net req).1); [done| | |].
    - intros y k' e' Hy Hf'. rewrite <- Hel in Hy.
      destruct (Hback _ _ (mk_elems_spec uri_from_str net de_comments github _ elems Hm)
                  y k' e' Hy Hf') as (j & r & Hj & Hr & Her & ->).
      eapply Hmin; eauto.
    - intros y k' e' Hy Hf'.
      destruct (Hback _ _ Hpre_e y k' e' Hy Hf') as (j & r & Hj & Hr & Her & ->).
      eapply Hpre; eauto.
    - rewrite <- Hel. unfold join_fuel. apply Nat.lt_succ_r.
      replace ((net req).1) with (elem_wait (Pending f)) by (simpl; congruence).
      apply list_max_ge. apply list_elem_of_fmap_2. rewrite Hel.
      apply elem_of_app. right. apply list_elem_of_here. }
  unfold run. rewrite Hg, Hf, Hm, Hj. reflexivity.
Qed.
End RunFailure.

Lemma run_reports_earliest_failure_witness :
  run sample_translit uri_nonempty race_net (fun _ => None)
    (fun _ => Some (sample_issues 3)) no_comments (Ok tt) sample_render
    (Ok tt) (Ok tt) (lit "agent") sample_query (lit "t") (lit "./md") Open
    sample_world = (Exited (Err (from_kind (Request (lit "fast")))), sample_world).
Proof.
  apply (run_reports_earliest_failure sample_translit uri_nonempty race_net
           (fun _ => None) (fun _ => Some (sample_issues 3)) no_comments (Ok tt)
           sample_render (Ok tt) (Ok tt) (lit "agent") sample_query (lit "t")
           (lit "./md") Open sample_world sample_github
           [sample_issue 1 (lit "Issue"); sample_issue 2 (lit "Issue")]
           (sample_issue 3 (lit "Issue")) [] (mkRequest Get
              (mkUri (sample_comments_url 3))
              [(lit "User-Agent", lit "agent"); (lit "Authorization", lit "token t");
               (lit "Content-Type", lit "application/json");
               (lit "Content-Length", lit "0")])).
  - reflexivity.
  - reflexivity.
  - vm_compute. reflexivity.
  - intros j Hj. cbn [app] in Hj.
    repeat (apply elem_of_cons in Hj as [->|Hj]; [eexists; reflexivity|]).
    by apply not_elem_of_nil in Hj.
  - vm_compute. reflexivity.
  - vm_compute. reflexivity.
  - intros j r e' Hj Hr He. cbn [app] in Hj.
    repeat (apply elem_of_cons in Hj as [->|Hj];
      [vm_compute in Hr; injection Hr as <-; vm_compute in He;
       first [discriminate | vm_compute; lia]|]).
    by apply not_elem_of_nil in Hj.
  - intros j r e' Hj Hr He.
    repeat (apply elem_of_cons in Hj as [->|Hj];
      [vm_compute in Hr; injection Hr as <-; vm_compute in He;
       first [discriminate | vm_compute; lia]|]).
    by apply not_elem_of_nil in Hj.
Defined.
